(** * pugpug: the migration-state engine of [pugpug.py]

    A shallow embedding of [PugPugState] (the index of migrations, the
    resolver and the validator), of [PugPug.mk_slug] and of the parts of
    [PugPug.check] that decide the engine's results, together with the
    properties of the specification that hold of them, and concrete
    evaluations where the code departs from the specification.

    Python values are modelled as follows.
    - [str] is [string]; a string is the sequence of its UTF-8 bytes, and
      Python's comparison of strings (by code point) is [String.compare]
      (by byte), which agrees with it on UTF-8.
    - [dict] is an association list with distinct keys, kept in insertion
      order: [d.get(k)], [d[k] = v], [k in d], [d.keys()], [d.items()].
      No property below depends on the order of enumeration unless it
      says so.
    - [set] is a duplicate-free list.
    - An exception is a value of [exn]; a call that can raise returns a
      [result].
    - What a function prints is returned as a list of [Msg], one
      constructor per [print] statement, carrying its format arguments. *)

From Stdlib Require Import String Ascii List Bool ZArith Lia.
From Stdlib Require Import Permutation Sorted.
Import ListNotations.

Local Open Scope string_scope.
Local Open Scope list_scope.

(* ================================================================== *)
(** ** Python containers *)

Module Py.

(** *** Exceptions *)

Inductive exn : Type :=
| KeyError (key : string)
| ValueError (what : string)
| IOError (path : string)
| FileExistsError (path : string)
| Exception (msg : string).

Inductive result (A : Type) : Type :=
| Ok (a : A)
| Raise (e : exn).

Arguments Ok {A} a.
Arguments Raise {A} e.

Definition bind {A B} (r : result A) (k : A -> result B) : result B :=
  match r with
  | Ok a => k a
  | Raise e => Raise e
  end.

(** *** dict *)

Definition dict (V : Type) : Type := list (string * V).

Fixpoint get {V} (d : dict V) (k : string) : option V :=
  match d with
  | [] => None
  | (k', v) :: d' => if String.eqb k' k then Some v else get d' k
  end.

(** [d.get(k, dflt)] *)
Definition get_or {V} (d : dict V) (k : string) (dflt : V) : V :=
  match get d k with
  | Some v => v
  | None => dflt
  end.

(** [k in d] *)
Definition contains {V} (d : dict V) (k : string) : bool :=
  match get d k with
  | Some _ => true
  | None => false
  end.

(** [d[k] = v]: an existing key keeps its place, a new one goes last. *)
Fixpoint set {V} (d : dict V) (k : string) (v : V) : dict V :=
  match d with
  | [] => [(k, v)]
  | (k', v') :: d' =>
      if String.eqb k' k then (k, v) :: d' else (k', v') :: set d' k v
  end.

Definition keys {V} (d : dict V) : list string := map fst d.

(** [d[k]] *)
Definition getitem {V} (d : dict V) (k : string) : result V :=
  match get d k with
  | Some v => Ok v
  | None => Raise (KeyError k)
  end.

(** [dict(pairs)] *)
Definition of_list {V} (l : list (string * V)) : dict V :=
  fold_left (fun d kv => set d (fst kv) (snd kv)) l [].

(** A well-formed dict has each key once. *)
Definition wf {V} (d : dict V) : Prop := NoDup (keys d).

(** *** set *)

Definition pyset : Type := list string.

Definition mem (x : string) (s : pyset) : bool := existsb (String.eqb x) s.

(** [s.add(x)] *)
Definition add (s : pyset) (x : string) : pyset :=
  if mem x s then s else s ++ [x].

(** [set(l)] *)
Definition set_of (l : list string) : pyset := fold_left add l [].

(** [a | b] *)
Definition union (a b : pyset) : pyset := fold_left add b a.

(** *** sorted and max on strings *)

Fixpoint insert (x : string) (l : list string) : list string :=
  match l with
  | [] => [x]
  | y :: l' => if String.leb x y then x :: l else y :: insert x l'
  end.

(** [sorted(l)] *)
Definition sorted (l : list string) : list string :=
  fold_right insert [] l.

(** [max(l)]; raises [ValueError] on an empty sequence. *)
Definition max (l : list string) : result string :=
  match l with
  | [] => Raise (ValueError "max() arg is an empty sequence")
  | x :: l' =>
      Ok (fold_left (fun m y => if String.ltb m y then y else m) l' x)
  end.

(** [sep.join(l)] *)
Definition join (sep : string) (l : list string) : string :=
  String.concat sep l.

End Py.

Import Py.

(* ================================================================== *)
(** ** SHA-1 ([hashlib.sha1(...).hexdigest()])

    [hashlib] is not part of the repository.  The engine is stated over
    an arbitrary [string_sha]; this module gives the function the program
    runs with (FIPS 180-4, on 32-bit words held in [Z]), so that the
    engine can be evaluated on concrete snapshots. *)

Module Sha1.

Local Open Scope Z_scope.

Definition w32 (x : Z) : Z := x mod 2 ^ 32.

Definition rotl (n x : Z) : Z :=
  w32 (Z.lor (Z.shiftl x n) (Z.shiftr x (32 - n))).

Definition bytes_of_string (s : string) : list Z :=
  map (fun c => Z.of_N (N_of_ascii c)) (list_ascii_of_string s).

(** Big-endian bytes of [x], [n] of them. *)
Fixpoint be_bytes (n : nat) (x : Z) : list Z :=
  match n with
  | O => []
  | S n' => be_bytes n' (Z.shiftr x 8) ++ [x mod 256]
  end.

Definition pad (msg : list Z) : list Z :=
  let len := Z.of_nat (List.length msg) in
  let zeros := Z.to_nat ((55 - len) mod 64) in
  msg ++ [128] ++ repeat 0 zeros ++ be_bytes 8 (8 * len).

Definition be_word (bs : list Z) : Z :=
  fold_left (fun acc b => acc * 256 + b) bs 0.

(** The 32-bit words of a byte sequence; [fuel] bounds the number of words. *)
Fixpoint words (fuel : nat) (bs : list Z) : list Z :=
  match fuel, bs with
  | S f, b0 :: b1 :: b2 :: b3 :: rest => be_word [b0; b1; b2; b3] :: words f rest
  | _, _ => []
  end.

(** The blocks of sixteen words. *)
Fixpoint blocks (fuel : nat) (ws : list Z) : list (list Z) :=
  match fuel, ws with
  | S f, _ :: _ => firstn 16 ws :: blocks f (skipn 16 ws)
  | _, _ => []
  end.

(** Message schedule, most recent word first. *)
Fixpoint schedule (n : nat) (rev_ws : list Z) : list Z :=
  match n with
  | O => rev_ws
  | S n' =>
      let w k := nth k rev_ws 0 in
      schedule n'
        (rotl 1 (Z.lxor (Z.lxor (w 2%nat) (w 7%nat)) (Z.lxor (w 13%nat) (w 15%nat)))
           :: rev_ws)
  end.

Record regs : Type := Regs { ra : Z; rb : Z; rc : Z; rd : Z; re : Z }.

Definition round (r : regs) (iw : nat * Z) : regs :=
  let '(i, w) := iw in
  let '(Regs a b c d e) := r in
  let '(f, k) :=
    if (i <? 20)%nat then
      (Z.lor (Z.land b c) (Z.land (Z.lxor b 4294967295) d), 1518500249)
    else if (i <? 40)%nat then
      (Z.lxor (Z.lxor b c) d, 1859775393)
    else if (i <? 60)%nat then
      (Z.lor (Z.lor (Z.land b c) (Z.land b d)) (Z.land c d), 2400959708)
    else
      (Z.lxor (Z.lxor b c) d, 3395469782) in
  Regs (w32 (rotl 5 a + f + e + k + w)) a (rotl 30 b) c d.

Definition compress (h : regs) (block : list Z) : regs :=
  let ws := rev (schedule 64 (rev block)) in
  let r := fold_left round (combine (seq 0 80) ws) h in
  Regs (w32 (ra h + ra r)) (w32 (rb h + rb r)) (w32 (rc h + rc r))
       (w32 (rd h + rd r)) (w32 (re h + re r)).

Definition init : regs :=
  Regs 1732584193 4023233417 2562383102 271733878 3285377520.

Definition digest (msg : list Z) : list Z :=
  let bs := pad msg in
  let n := List.length bs in
  let r := fold_left compress (blocks n (words n bs)) init in
  be_bytes 4 (ra r) ++ be_bytes 4 (rb r) ++ be_bytes 4 (rc r)
    ++ be_bytes 4 (rd r) ++ be_bytes 4 (re r).

Definition hex_digit (x : Z) : ascii :=
  ascii_of_N (Z.to_N (if x <? 10 then 48 + x else 87 + x)).

Fixpoint hex (bs : list Z) : string :=
  match bs with
  | [] => EmptyString
  | b :: bs' => String (hex_digit (b / 16)) (String (hex_digit (b mod 16)) (hex bs'))
  end.

(** [hashlib.sha1(s.encode('utf8')).hexdigest()] *)
Definition hexdigest (s : string) : string := hex (digest (bytes_of_string s)).

End Sha1.

(* ================================================================== *)
(** ** The data of the engine *)

(** [PugPugPG.table_summary]: [dict(sql=sql, sha=string_sha(sql))]. *)
Record TableSummary : Type := mkSummary { sql : string; sha : string }.

(** A snapshot of the live database, as [PugPugPG.db_summary] returns it:
    one entry per table that exists. *)
Definition Snapshot : Type := dict TableSummary.

(** A record of [sequence.yml]. *)
Record Migration : Type := mkMigration {
  comment : string;
  start_shas : dict string;
  end_shas : dict string;
  sql_sha : string
}.

(** The attributes of a [PugPugState] object. *)
Record PugPugState : Type := mkState {
  table_transforms : dict (dict string);
  simple_starts : dict string;
  tables : dict (dict string);
  seen : pyset;
  seq : dict Migration
}.

(** What the engine prints; the colour codes of the format strings are
    left out. *)
Inductive Msg : Type :=
| WarnMultipleTransforms (table start_sha : string)
| ErrorUnknownState (table table_sha : string)
| ErrorUnknownTable (table : string)
| ReportMigration (m : string) (ts : list string)
| ReportCantRun (m : string) (ts bad : list string)
| ReportUpToDate
| ReportNextSimple (n : string)
| ReportNonLinearizable
| ReportNoMatch.

(** The directories under [pugpug/] that [init_from_zero] looks for and
    makes: whether [pugpug/sql] and whether [pugpug/table_data] exist. *)
Record Dirs : Type := mkDirs {
  sql_dir : bool;
  table_data_dir : bool
}.

(** The files under [pugpug/]: [sequence.yml] and one file per table in
    [table_data/]; [None] is a file that does not exist. *)
Record Files : Type := mkFiles {
  sequence_file : option (dict Migration);
  table_file : string -> option (dict string)
}.

Definition SequenceFile : string := "pugpug/sequence.yml".
Definition TableFiles (table : string) : string :=
  ("pugpug/table_data/" ++ table ++ ".yml")%string.

Definition with_table_transforms (st : PugPugState) (tt : dict (dict string)) :=
  mkState tt (simple_starts st) (tables st) (seen st) (seq st).
Definition with_simple_starts (st : PugPugState) (ss : dict string) :=
  mkState (table_transforms st) ss (tables st) (seen st) (seq st).
Definition with_tables (st : PugPugState) (tb : dict (dict string)) :=
  mkState (table_transforms st) (simple_starts st) tb (seen st) (seq st).
Definition with_seen (st : PugPugState) (sn : pyset) :=
  mkState (table_transforms st) (simple_starts st) (tables st) sn (seq st).
Definition with_seq (st : PugPugState) (sq : dict Migration) :=
  mkState (table_transforms st) (simple_starts st) (tables st) (seen st) sq.

(** The locals of [find_next_migration_advanced] after its first loop. *)
Record Scan : Type := mkScan {
  error : list string;
  untracked : list string;
  up_to_date : list string;
  next_migs : dict (list string)
}.

(** What [PugPug.check] returns: [None], a slug, the groups of the
    advanced resolution, or [False]. *)
Inductive CheckResult : Type :=
| CheckNone
| CheckSlug (slug : string)
| CheckGroups (groups : dict (list string))
| CheckFalse.

(** *** Nested lookups *)

(** [self.tables[name].get(h)], [None] also when the table has no history. *)
Definition stored (tbs : dict (dict string)) (name h : string) : option string :=
  get (get_or tbs name []) h.

(** [self.table_transforms[table].get(h)], [None] also for an unknown table. *)
Definition transform (tt : dict (dict string)) (table h : string) : option string :=
  get (get_or tt table []) h.


(* ================================================================== *)
(** ** PugPugState *)

Section Engine.

(** [string_sha = lambda s: hashlib.sha1(s.encode('utf8')).hexdigest()] *)
Variable string_sha : string -> string.

Definition EMPTYSHA : string := string_sha "".

(** The first statement of [init_from_zero]: when [pugpug/sql] is not
    there, [os.makedirs] makes it, and then [pugpug/table_data], which it
    refuses to make when that is there already.  The directories as they
    are afterwards. *)
Definition makedirs (dirs : Dirs) : result Dirs :=
  if sql_dir dirs then Ok dirs
  else if table_data_dir dirs then Raise (FileExistsError "pugpug/table_data")
  else Ok (mkDirs true true).

(** [init_from_zero] *)
Definition init_from_zero (dirs : Dirs) (fs : Files) (force : bool)
    : result PugPugState :=
  bind (makedirs dirs) (fun _ =>
  match sequence_file fs, force with
  | Some _, false =>
      Raise (Exception "Cowardly refusing to blow away data without --force.")
  | _, _ => Ok (mkState [] [] [] [] [])
  end).

(** [snap_sha]: the keys sorted, ["k=v"] joined with ["&"], hashed.
    [db_snap[k]] is read for keys of [db_snap] only, so the default of
    [get_or] is never used. *)
Definition snap_sha (db_snap : dict string) : string :=
  let table_defs :=
    map (fun k => (k ++ "=" ++ get_or db_snap k "")%string)
      (sorted (keys db_snap)) in
  string_sha (join "&" table_defs).

(** [snap_to_shas] *)
Definition snap_to_shas (snap : Snapshot) : dict string :=
  of_list (map (fun ti => (fst ti, sha (snd ti))) snap).

(** The body of the loop of [index_migration]. *)
Definition index_table (slug : string) (start_shas end_shas : dict string)
    (acc : PugPugState * list Msg) (table : string) : PugPugState * list Msg :=
  let (st, out) := acc in
  let tt :=
    if contains (table_transforms st) table then table_transforms st
    else set (table_transforms st) table [] in
  let start_sha := get_or start_shas table EMPTYSHA in
  let end_sha := get_or end_shas table EMPTYSHA in
  let sn := add (add (seen st) start_sha) end_sha in
  if String.eqb start_sha end_sha then
    (with_seen (with_table_transforms st tt) sn, out)
  else
    let row := get_or tt table [] in
    let out' :=
      if contains row start_sha
      then out ++ [WarnMultipleTransforms table start_sha]
      else out in
    (with_seen (with_table_transforms st (set tt table (set row start_sha slug))) sn,
     out').

(** [index_migration] *)
Definition index_migration (slug : string) (mig : Migration)
    (acc : PugPugState * list Msg) : PugPugState * list Msg :=
  let (st, out) := acc in
  let st1 :=
    with_simple_starts st
      (set (simple_starts st) (snap_sha (start_shas mig)) slug) in
  fold_left (index_table slug (start_shas mig) (end_shas mig))
    (union (set_of (keys (start_shas mig))) (set_of (keys (end_shas mig))))
    (st1, out).

(** The second loop of [load_all]: one file per indexed table. *)
Fixpoint load_tables (fs : Files) (names : list string)
    (acc : dict (dict string)) : result (dict (dict string)) :=
  match names with
  | [] => Ok acc
  | table :: rest =>
      match table_file fs table with
      | None => Raise (IOError (TableFiles table))
      | Some history => load_tables fs rest (set acc table history)
      end
  end.

(** The first loop of [load_all]: every migration of the sequence is
    indexed. *)
Definition index_all (sq : dict Migration) (acc : PugPugState * list Msg)
    : PugPugState * list Msg :=
  fold_left (fun acc sm => index_migration (fst sm) (snd sm) acc) sq acc.

(** [load_all] *)
Definition load_all (fs : Files) : result (PugPugState * list Msg) :=
  match sequence_file fs with
  | None => Raise (IOError SequenceFile)
  | Some sq =>
      let (st, out) := index_all sq (mkState [] [] [] [] sq, []) in
      bind (load_tables fs (keys (table_transforms st)) [])
        (fun tb => Ok (with_tables st tb, out))
  end.

(** The body of the loop of [update_table_snaps]; [db_snapshot[name]] is
    read for keys of [db_snapshot] only. *)
Definition update_table_snap (db_snapshot : Snapshot)
    (tbs : dict (dict string)) (name : string) : dict (dict string) :=
  let tbs1 := if contains tbs name then tbs else set tbs name [] in
  let table := get_or tbs1 name [] in
  match get db_snapshot name with
  | None => tbs1
  | Some table_snap =>
      if contains table (sha table_snap) then tbs1
      else set tbs1 name (set table (sha table_snap) (sql table_snap))
  end.

(** [update_table_snaps] *)
Definition update_table_snaps (db_snapshot : Snapshot) (st : PugPugState)
    : PugPugState :=
  with_tables st
    (fold_left (update_table_snap db_snapshot) (keys db_snapshot) (tables st)).

(** [add_migration] *)
Definition add_migration (slug comment sql : string)
    (start_snap end_snap : Snapshot) (st : PugPugState)
    : PugPugState * list Msg :=
  let mig :=
    mkMigration comment (snap_to_shas start_snap) (snap_to_shas end_snap)
      (string_sha sql) in
  let st1 := with_seq st (set (seq st) slug mig) in
  let (st2, out) := index_migration slug mig (st1, []) in
  (update_table_snaps end_snap st2, out).

(** The body of the loop of [check_validity]. *)
Definition check_table (mig : Migration) (db_shas : dict string)
    (postrun : bool) (bad_tables : list string) (name : string) : list string :=
  let start := get_or (start_shas mig) name EMPTYSHA in
  let end_ := get_or (end_shas mig) name EMPTYSHA in
  if negb (String.eqb start end_) then
    if negb (String.eqb start (get_or db_shas name EMPTYSHA)) && negb postrun
    then bad_tables ++ [name]
    else if postrun && negb (String.eqb end_ (get_or db_shas name EMPTYSHA))
    then bad_tables ++ [name]
    else bad_tables
  else bad_tables.

(** [check_validity]: [None] or the non-empty list of the bad tables. *)
Definition check_validity (st : PugPugState) (slug : string)
    (db_snap : Snapshot) (postrun : bool) : result (option (list string)) :=
  let db_shas := snap_to_shas db_snap in
  bind (getitem (seq st) slug) (fun mig =>
  let names :=
    union (set_of (keys (start_shas mig))) (set_of (keys (end_shas mig))) in
  let bad_tables := fold_left (check_table mig db_shas postrun) names [] in
  Ok (match bad_tables with [] => None | _ :: _ => Some bad_tables end)).

(** [is_up_to_date] *)
Definition is_up_to_date (st : PugPugState) (db_snap : Snapshot) : result bool :=
  let query_sha := snap_sha (snap_to_shas db_snap) in
  bind (max (keys (seq st))) (fun mig_key =>
  bind (getitem (seq st) mig_key) (fun mig =>
  Ok (String.eqb query_sha (snap_sha (end_shas mig))))).

(** [find_next_migration_simple] *)
Definition find_next_migration_simple (st : PugPugState) (db_snap : Snapshot)
    : option string :=
  let query_sha := snap_sha (snap_to_shas db_snap) in
  get (simple_starts st) query_sha.

(** [get_slugs] *)
Definition get_slugs (st : PugPugState) : list string := sorted (keys (seq st)).

(** The body of the first loop of [find_next_migration_advanced]. *)
Definition scan_table (st : PugPugState) (db_shas : dict string)
    (acc : Scan * list Msg) (table : string) : Scan * list Msg :=
  let (sc, out) := acc in
  let table_sha := get_or db_shas table EMPTYSHA in
  let next_sha := get (get_or (table_transforms st) table []) table_sha in
  match next_sha with
  | None =>
      if mem table_sha (seen st) then
        (mkScan (error sc) (untracked sc) (up_to_date sc ++ [table])
           (next_migs sc), out)
      else
        (mkScan (error sc ++ [table]) (untracked sc) (up_to_date sc)
           (next_migs sc),
         out ++ [if contains (tables st) table
                 then ErrorUnknownState table table_sha
                 else ErrorUnknownTable table])
  | Some m =>
      let nm :=
        if contains (next_migs sc) m then next_migs sc
        else set (next_migs sc) m [] in
      (mkScan (error sc) (untracked sc) (up_to_date sc)
         (set nm m (get_or nm m [] ++ [table])), out)
  end.

(** [set(db_snap.keys())|set(self.tables.keys())]: the tables of the
    snapshot and of the history. *)
Definition all_tables (st : PugPugState) (db_snap : Snapshot) : pyset :=
  union (set_of (keys db_snap)) (set_of (keys (tables st))).

(** The first loop of [find_next_migration_advanced]. *)
Definition advanced_scan (st : PugPugState) (db_snap : Snapshot)
    : Scan * list Msg :=
  let db_shas := snap_to_shas db_snap in
  let tbls := all_tables st db_snap in
  fold_left (scan_table st db_shas) tbls (mkScan [] [] [] [], []).

(** The second loop of [find_next_migration_advanced]: each candidate is
    checked against the snapshot and reported; [check_validity] raises on
    a slug that is not in the sequence. *)
Fixpoint advanced_report (st : PugPugState) (db_snap : Snapshot)
    (items : list (string * list string)) (out : list Msg)
    : list Msg * result unit :=
  match items with
  | [] => (out, Ok tt)
  | (m, ts) :: rest =>
      match check_validity st m db_snap false with
      | Raise e => (out, Raise e)
      | Ok None => advanced_report st db_snap rest (out ++ [ReportMigration m ts])
      | Ok (Some bad_tables) =>
          advanced_report st db_snap rest (out ++ [ReportCantRun m ts bad_tables])
      end
  end.

(** [find_next_migration_advanced]: what it prints, and [next_migs] when
    that is not empty, [None] otherwise. *)
Definition find_next_migration_advanced (st : PugPugState) (db_snap : Snapshot)
    : list Msg * result (option (dict (list string))) :=
  let (sc, out) := advanced_scan st db_snap in
  let (out', r) := advanced_report st db_snap (next_migs sc) out in
  (out',
   bind r (fun _ =>
     Ok (match next_migs sc with [] => None | _ :: _ => Some (next_migs sc) end))).

(** *** Reading the state *)

(** The hash a migration records for a table at its start and at its end,
    and the hash a snapshot gives it: a table that is missing reads as
    [EMPTYSHA]. *)
Definition start_of (mig : Migration) (name : string) : string :=
  get_or (start_shas mig) name EMPTYSHA.
Definition end_of (mig : Migration) (name : string) : string :=
  get_or (end_shas mig) name EMPTYSHA.
Definition live_of (db_snap : Snapshot) (name : string) : string :=
  get_or (snap_to_shas db_snap) name EMPTYSHA.

(** The hash of a table as the snapshot itself has it, the [sha] of its
    entry, and [EMPTYSHA] for a table with no entry. *)
Definition snapshot_sha (db_snap : Snapshot) (name : string) : string :=
  match get db_snap name with
  | Some info => sha info
  | None => EMPTYSHA
  end.

(** The hash the validator expects of a table: the start hash before the
    run, the end hash after it. *)
Definition expected_of (mig : Migration) (postrun : bool) (name : string) : string :=
  if postrun then end_of mig name else start_of mig name.

(** The tables a migration names. *)
Definition names_of (mig : Migration) : pyset :=
  union (set_of (keys (start_shas mig))) (set_of (keys (end_shas mig))).

(** The bad tables [check_validity] finds for a migration. *)
Definition bad_tables_of (mig : Migration) (db_snap : Snapshot) (postrun : bool)
    : list string :=
  fold_left (check_table mig (snap_to_shas db_snap) postrun)
    (names_of mig) [].

(** The migration the index gives for a table at its hash in the snapshot:
    [self.table_transforms.get(table, {}).get(table_sha, None)]. *)
Definition next_of (st : PugPugState) (db_snap : Snapshot) (table : string)
    : option string :=
  transform (table_transforms st) table (live_of db_snap table).

(** The message of a table in error is among those printed. *)
Definition error_printed (db_snap : Snapshot) (out : list Msg) (t : string) : Prop :=
  In (ErrorUnknownState t (live_of db_snap t)) out \/
  In (ErrorUnknownTable t) out.

(** The slug indexed last, in the order the sequence is enumerated, among
    the migrations whose start state has the joint hash [q]. *)
Definition last_start (sq : dict Migration) (q : string) : option string :=
  fold_left
    (fun r sm => if String.eqb (snap_sha (start_shas (snd sm))) q
                 then Some (fst sm) else r)
    sq None.

(** What [max] raises on no key. *)
Definition empty_max : exn := ValueError "max() arg is an empty sequence".

End Engine.

(* ================================================================== *)
(** ** PugPug *)

(** The fields of [datetime.now()] that [strftime] reads. *)
Record datetime : Type := mkDatetime {
  year : nat;
  month : nat;
  day : nat;
  hour : nat;
  minute : nat;
  second : nat
}.

Definition digit (n : nat) : ascii := ascii_of_nat (48 + n mod 10).

(** The last [width] decimal digits of [n], zero-padded. *)
Fixpoint zero_padded (width n : nat) : string :=
  match width with
  | O => EmptyString
  | S w => (zero_padded w (n / 10) ++ String (digit n) EmptyString)%string
  end.

(** [dt.strftime("%Y-%M-%d_%H-%M-%S-")]: [%Y] is the year on four digits,
    [%M] the minute, [%d] the day, [%H] the hour and [%S] the second, each
    on two digits; the format has no [%m]. *)
Definition strftime_slug (dt : datetime) : string :=
  (zero_padded 4 (year dt) ++ "-" ++ zero_padded 2 (minute dt) ++ "-"
   ++ zero_padded 2 (day dt) ++ "_" ++ zero_padded 2 (hour dt) ++ "-"
   ++ zero_padded 2 (minute dt) ++ "-" ++ zero_padded 2 (second dt) ++ "-")%string.

(** The order of [datetime] values. *)
Definition datetime_key (dt : datetime) : list nat :=
  [year dt; month dt; day dt; hour dt; minute dt; second dt].

Fixpoint lex_ltb (a b : list nat) : bool :=
  match a, b with
  | x :: a', y :: b' => (x <? y)%nat || ((x =? y)%nat && lex_ltb a' b')
  | [], _ :: _ => true
  | _, [] => false
  end.

Definition datetime_ltb (t1 t2 : datetime) : bool :=
  lex_ltb (datetime_key t1) (datetime_key t2).

(** [s[0:n]], the first [n] characters, on a string held as its UTF-8
    bytes: a byte from 128 to 191 continues the character before it. *)
Definition continues (c : ascii) : bool :=
  (128 <=? nat_of_ascii c)%nat && (nat_of_ascii c <? 192)%nat.

Fixpoint first_chars (n : nat) (s : string) : string :=
  match s with
  | EmptyString => EmptyString
  | String c s' =>
      if continues c then String c (first_chars n s')
      else match n with
           | O => EmptyString
           | S n' => String c (first_chars n' s')
           end
  end.

Section Commands.

Variable string_sha : string -> string.

(** [slugify.slugify], which is not part of the repository. *)
Variable slugify : string -> string.

(** [mk_slug], at the time [now]. *)
Definition mk_slug (now : datetime) (comment : string) : string :=
  let dt := strftime_slug now in
  slugify (dt ++ first_chars 40 comment)%string.

(** [init], on the snapshot and the full dump the database gives; its
    [save_all] is in [init_files]. *)
Definition init (now : datetime) (dirs : Dirs) (fs : Files) (force : bool)
    (full_create : string) (db_snap : Snapshot)
    : result (PugPugState * list Msg) :=
  let comment := "Initial Leap." in
  let slug := mk_slug now comment in
  let db_empty : Snapshot := [] in
  bind (init_from_zero dirs fs force) (fun st =>
  Ok (add_migration string_sha slug comment full_create db_empty db_snap st)).

(** The truth value of a slug: an empty string is false. *)
Definition truthy (s : string) : bool := negb (String.eqb s "").

(** [check], on the snapshot the database gives.  [if(next)] holds of a
    slug that is not empty and of groups that are not empty. *)
Definition check (fs : Files) (db_snap : Snapshot)
    : list Msg * result CheckResult :=
  match load_all string_sha fs with
  | Raise e => ([], Raise e)
  | Ok (st, out) =>
      match is_up_to_date string_sha st db_snap with
      | Raise e => (out, Raise e)
      | Ok true => (out ++ [ReportUpToDate], Ok CheckNone)
      | Ok false =>
          let advanced :=
            let (out', r) :=
              find_next_migration_advanced string_sha st db_snap in
            match r with
            | Raise e => (out ++ out', Raise e)
            | Ok (Some (g :: groups)) =>
                (out ++ out' ++ [ReportNonLinearizable],
                 Ok (CheckGroups (g :: groups)))
            | Ok _ => (out ++ out' ++ [ReportNoMatch], Ok CheckFalse)
            end in
          match find_next_migration_simple string_sha st db_snap with
          | Some next =>
              if truthy next
              then (out ++ [ReportNextSimple next], Ok (CheckSlug next))
              else advanced
          | None => advanced
          end
      end
  end.

End Commands.

(** The line [check] prints before it returns, by what it returns. *)
Definition report_of (r : CheckResult) : Msg :=
  match r with
  | CheckNone => ReportUpToDate
  | CheckSlug next => ReportNextSimple next
  | CheckGroups _ => ReportNonLinearizable
  | CheckFalse => ReportNoMatch
  end.

(* ================================================================== *)
(** ** PugPugPG, the files written, and the commands that run SQL *)

(** What [pg_dump] answers for the live database: the tables
    [list_tables] finds in the dump, the statements [show_create] keeps of
    the dump of one table, and those [show_full_create] keeps of the whole
    dump.  The subprocess and the regular expressions that read its
    output are not modelled. *)
Record Database : Type := mkDatabase {
  list_tables : list string;
  show_create : string -> string;
  show_full_create : string
}.

(** What [migrate] did: it printed that the next migration is not obvious;
    it printed the tables that forbid the run; or it ran the file, after
    which the database is [db_after] and the check after the run named
    [run_failed] (printed when it names tables). *)
Inductive Migrated : Type :=
| NotObvious
| CantRun (bad_tables : list string)
| Ran (filename : string) (db_after : Database)
      (run_failed : option (list string)).


(** [MigrateFiles % dict(slug=slug)] *)
Definition MigrateFiles (slug : string) : string :=
  ("pugpug/sql/" ++ slug ++ ".sql")%string.

(** [get_file] *)
Definition get_file (slug : string) : string := MigrateFiles slug.

(** [dump_sorted_yaml]: one document [{k: dictionary[k]}] per key, the
    keys in ascending order; read back, the documents make one mapping
    with the keys in that order.  [dictionary[k]] is read for keys of
    [dictionary] only. *)
Definition dump_sorted_yaml {V} (dictionary : dict V) : dict V :=
  flat_map
    (fun k => match get dictionary k with Some v => [(k, v)] | None => [] end)
    (sorted (keys dictionary)).

(** A dictionary with no key is dumped as a file with no document in it,
    which [yaml.safe_load] reads as [None], not as a mapping: a file that
    [Files], whose files hold mappings, has no value for.  [saveable]: the
    state has no such dictionary to write, in its sequence or as the
    history of a table. *)
Definition saveable (st : PugPugState) : bool :=
  match seq st with [] => false | _ :: _ => true end &&
  forallb (fun th => match snd th with [] => false | _ :: _ => true end)
          (tables st).

(** [save_all], on a [saveable] state: the sequence file and the file of
    every table of [self.tables] are written; the other files stay.  (The
    commands save after [add_migration], which leaves a sequence with a
    record and a history with a text for every table of its snapshots; a
    history can then be empty only when it was loaded from a file holding
    the empty mapping.) *)
Definition save_all (st : PugPugState) (fs : Files) : Files :=
  mkFiles (Some (dump_sorted_yaml (seq st)))
    (fun table =>
       match get (tables st) table with
       | Some history => Some (dump_sorted_yaml history)
       | None => table_file fs table
       end).

(** [l[-1]] *)
Definition last_item (l : list string) : result string :=
  match l with
  | [] => Raise (Exception "IndexError: list index out of range")
  | x :: l' => Ok (List.last l' x)
  end.

(** The slug [show] displays when it is given none:
    [self.state.get_slugs()[-1]]. *)
Definition latest_slug (st : PugPugState) : result string :=
  last_item (get_slugs st).

Section Database.

Variable string_sha : string -> string.

(** [slugify.slugify], which is not part of the repository. *)
Variable slugify : string -> string.

(** [PugPugPG.run_sql]: what running [psql] on a file does to the
    database; [Raise] is the [CalledProcessError] of a run that fails. *)
Variable run_sql : Database -> string -> result Database.

(** [table_summary] *)
Definition table_summary (db : Database) (table : string) : TableSummary :=
  let sql := show_create db table in
  mkSummary sql (string_sha sql).

(** [db_summary] *)
Definition db_summary (db : Database) : Snapshot :=
  of_list (map (fun t => (t, table_summary db t)) (list_tables db)).

(** [PugPug.init] with its [save_all]: the files after the command.  The
    file of a table is opened under [pugpug/table_data], which is there
    after [init_from_zero] when it was there before or [pugpug/sql] was
    not; [pugpug/sequence.yml] is opened under [pugpug], which is there. *)
Definition init_files (now : datetime) (dirs : Dirs) (fs : Files)
    (force : bool) (db : Database) : result Files :=
  bind (init string_sha slugify now dirs fs force (show_full_create db) (db_summary db))
    (fun so =>
       match tables (fst so) with
       | (table, _) :: _ =>
           if negb (sql_dir dirs) || table_data_dir dirs
           then Ok (save_all (fst so) fs)
           else Raise (IOError (TableFiles table))
       | [] => Ok (save_all (fst so) fs)
       end).

(** The slug [migrate] goes on with: the one it is given, or, given none
    (or an empty one), the one of simple resolution. *)
Definition chosen_slug (st : PugPugState) (start_snap : Snapshot)
    (slug : option string) : option string :=
  match slug with
  | Some s => if truthy s then Some s
              else find_next_migration_simple string_sha st start_snap
  | None => find_next_migration_simple string_sha st start_snap
  end.

(** [PugPug.migrate] *)
Definition migrate (fs : Files) (db : Database) (slug : option string)
    : result Migrated :=
  bind (load_all string_sha fs) (fun so =>
  let st := fst so in
  let start_snap := db_summary db in
  match chosen_slug st start_snap slug with
  | None => Ok NotObvious
  | Some s =>
      if truthy s then
        bind (check_validity string_sha st s start_snap false) (fun bad_tables =>
        match bad_tables with
        | Some bad => Ok (CantRun bad)
        | None =>
            let filename := get_file s in
            bind (run_sql db filename) (fun db' =>
            let end_snap := db_summary db' in
            bind (check_validity string_sha st s end_snap true) (fun bad_tables' =>
            Ok (Ran filename db' bad_tables')))
        end)
      else Ok NotObvious
  end).


End Database.

(** *** Reading the store and the sequence *)

(** Every text of the history store is stored under its own hash. *)
Definition hashes_consistent (string_sha : string -> string)
    (tbs : dict (dict string)) : Prop :=
  forall name h text, stored tbs name h = Some text -> string_sha text = h.

(** What a snapshot adds under [(name, h)] to a store that has nothing
    there: its text for the table, when [h] is its hash for the table. *)
Definition snapshot_text (db_snapshot : Snapshot) (name h : string)
    : option string :=
  match get db_snapshot name with
  | Some table_snap =>
      if String.eqb (sha table_snap) h then Some (sql table_snap) else None
  | None => None
  end.

(** A migration changes [table] from the hash [h]. *)
Definition changes_from (string_sha : string -> string) (mig : Migration)
    (table h : string) : bool :=
  negb (String.eqb (start_of string_sha mig table) (end_of string_sha mig table))
  && String.eqb (start_of string_sha mig table) h.

(** The slug of the last record of a sequence, in the order it is
    enumerated, that satisfies [p]. *)
Definition last_where (p : Migration -> bool) (sq : dict Migration)
    : option string :=
  fold_left (fun r sm => if p (snd sm) then Some (fst sm) else r) sq None.

(** Ascending order of strings, as [sorted] and [max] compare them. *)
Definition ascending (l : list string) : Prop :=
  StronglySorted (fun a b => String.leb a b = true) l.


(* ================================================================== *)
(** ** A database with one table, evaluated with SHA-1 *)

Definition sqlA : string := "CREATE TABLE a (id integer);".
Definition sqlA2 : string := "CREATE TABLE a (id integer, n text);".
Definition sqlA3 : string := "CREATE TABLE a (id integer, m text);".
Definition sqlX : string := "CREATE TABLE a (x text);".

Definition hA : string := Eval vm_compute in Sha1.hexdigest sqlA.
Definition hA2 : string := Eval vm_compute in Sha1.hexdigest sqlA2.
Definition hA3 : string := Eval vm_compute in Sha1.hexdigest sqlA3.
Definition hX : string := Eval vm_compute in Sha1.hexdigest sqlX.
Definition hEmpty : string := Eval vm_compute in Sha1.hexdigest "".

(** The table at its first schema, after each of two changes, and at a
    schema no migration knows. *)
Definition snapA : Snapshot := [("a", mkSummary sqlA hA)].
Definition snapA2 : Snapshot := [("a", mkSummary sqlA2 hA2)].
Definition snapX : Snapshot := [("a", mkSummary sqlX hX)].

(** The record of [init], and two migrations that both change table [a]
    from its first schema. *)
Definition mig0 : Migration :=
  mkMigration "Initial Leap." [] [("a", hA)] (Sha1.hexdigest sqlA).
Definition mig1 : Migration :=
  mkMigration "add n" [("a", hA)] [("a", hA2)]
    (Sha1.hexdigest "ALTER TABLE a ADD n text;").
Definition mig2 : Migration :=
  mkMigration "add m" [("a", hA)] [("a", hA3)]
    (Sha1.hexdigest "ALTER TABLE a ADD m text;").

Definition history_a : dict string := [(hA, sqlA); (hA2, sqlA2); (hA3, sqlA3)].

Definition files_init : Files :=
  mkFiles (Some [("s0", mig0)])
    (fun t => if String.eqb t "a" then Some [(hA, sqlA)] else None).

Definition files_branch : Files :=
  mkFiles (Some [("s0", mig0); ("s1", mig1); ("s2", mig2)])
    (fun t => if String.eqb t "a" then Some history_a else None).

Definition loaded (fs : Files) : PugPugState * list Msg :=
  match load_all Sha1.hexdigest fs with
  | Ok r => r
  | Raise _ => (mkState [] [] [] [] [], [])
  end.

Definition st_init : PugPugState := Eval vm_compute in fst (loaded files_init).
Definition st_branch : PugPugState := Eval vm_compute in fst (loaded files_branch).
Definition out_branch : list Msg := Eval vm_compute in snd (loaded files_branch).

(** The database with table [a] at its first schema and after each of
    the two changes, and runs of [psql] that make the one or the other
    change, whatever the file. *)
Definition db_one : Database := mkDatabase ["a"] (fun _ => sqlA) sqlA.
Definition db_two : Database := mkDatabase ["a"] (fun _ => sqlA2) sqlA2.
Definition db_three : Database := mkDatabase ["a"] (fun _ => sqlA3) sqlA3.

Definition run_add_n (db : Database) (filename : string) : result Database :=
  Ok db_two.
Definition run_add_m (db : Database) (filename : string) : result Database :=
  Ok db_three.

(** No file at all, and the files of a state initialised in 2019. *)
Definition files_none : Files := mkFiles None (fun _ => None).

(** No directory yet; [pugpug/table_data] without [pugpug/sql]; and
    [pugpug/sql] without [pugpug/table_data]; and both. *)
Definition dirs_none : Dirs := mkDirs false false.
Definition dirs_table_data : Dirs := mkDirs false true.
Definition dirs_sql : Dirs := mkDirs true false.
Definition dirs_both : Dirs := mkDirs true true.



(** A [slugify] that keeps its argument. *)
Definition keep (s : string) : string := s.

(** Two creation times a month apart, and two a minute apart. *)
Definition january_15 : datetime := mkDatetime 2020 1 15 10 30 0.
Definition february_14 : datetime := mkDatetime 2020 2 14 10 30 0.
Definition at_00_59 : datetime := mkDatetime 2020 1 1 0 59 0.
Definition at_01_00 : datetime := mkDatetime 2020 1 1 1 0 0.

(* ================================================================== *)
(** ** Facts about the containers *)

Section PyFacts.

Context {V : Type}.
Implicit Types (d : dict V) (k : string) (v : V).

Lemma get_set d k v k' :
  get (set d k v) k' = if String.eqb k k' then Some v else get d k'.
Proof.
  induction d as [|[k0 v0] d IH]; simpl.
  - reflexivity.
  - destruct (String.eqb_spec k0 k) as [->|Hk0]; simpl.
    + destruct (String.eqb_spec k k'); reflexivity.
    + rewrite IH. destruct (String.eqb_spec k0 k') as [->|]; [|reflexivity].
      destruct (String.eqb_spec k k'); congruence.
Qed.

Lemma get_set_eq d k v : get (set d k v) k = Some v.
Proof. rewrite get_set, String.eqb_refl. reflexivity. Qed.

Lemma get_set_neq d k v k' : k <> k' -> get (set d k v) k' = get d k'.
Proof.
  intros H. rewrite get_set. destruct (String.eqb_spec k k'); congruence.
Qed.

Lemma get_None_keys d k : get d k = None <-> ~ In k (keys d).
Proof.
  induction d as [|[k0 v0] d IH]; simpl.
  - tauto.
  - destruct (String.eqb_spec k0 k) as [->|Hk0].
    + split; [discriminate | intros H; exfalso; apply H; now left].
    + rewrite IH. split; [intros H [E|I]; congruence | tauto].
Qed.

Lemma get_None_keys_not d k : In k (keys d) -> get d k <> None.
Proof. intros I H. apply get_None_keys in H. tauto. Qed.

Lemma contains_keys d k : contains d k = true <-> In k (keys d).
Proof.
  unfold contains. destruct (get d k) eqn:E.
  - split; [intros _|reflexivity].
    destruct (in_dec string_dec k (keys d)) as [I|N]; [exact I|].
    apply get_None_keys in N. congruence.
  - split; [discriminate|]. intros I. apply get_None_keys in E. tauto.
Qed.

Lemma get_In d k v : get d k = Some v -> In (k, v) d.
Proof.
  induction d as [|[k0 v0] d IH]; simpl; [discriminate|].
  destruct (String.eqb_spec k0 k) as [->|]; intros H.
  - left. congruence.
  - right. now apply IH.
Qed.

Lemma In_get d k v : wf d -> In (k, v) d -> get d k = Some v.
Proof.
  unfold wf.
  induction d as [|[k0 v0] d IH]; simpl; [tauto|].
  intros Hnd [E|I]; inversion Hnd as [|? ? Hn Hd]; subst.
  - inversion E; subst. now rewrite String.eqb_refl.
  - destruct (String.eqb_spec k0 k) as [->|]; [|now apply IH].
    exfalso. apply Hn. change k with (fst (k, v)). now apply in_map.
Qed.

Lemma keys_set d k v k' : In k' (keys (set d k v)) <-> k' = k \/ In k' (keys d).
Proof.
  rewrite <- !contains_keys. unfold contains. rewrite get_set.
  destruct (String.eqb_spec k k') as [->|N].
  - tauto.
  - destruct (get d k'); intuition congruence.
Qed.

Lemma set_fresh d k v : ~ In k (keys d) -> set d k v = d ++ [(k, v)].
Proof.
  induction d as [|[k0 v0] d IH]; simpl; intros H; [reflexivity|].
  destruct (String.eqb_spec k0 k) as [->|]; [tauto|].
  rewrite IH; tauto.
Qed.

Lemma of_list_wf (l : list (string * V)) : wf l -> of_list l = l.
Proof.
  unfold of_list, wf.
  enough (G : forall (acc : dict V),
             NoDup (keys (acc ++ l)) ->
             fold_left (fun d kv => set d (fst kv) (snd kv)) l acc = acc ++ l)
    by (intros H; apply (G []); exact H).
  induction l as [|[k v] l IH]; intros acc H; simpl.
  - now rewrite app_nil_r.
  - assert (E : acc ++ (k, v) :: l = (acc ++ [(k, v)]) ++ l)
      by (now rewrite <- app_assoc).
    rewrite set_fresh.
    + rewrite IH; [now rewrite <- app_assoc | now rewrite <- E].
    + unfold keys in *. rewrite map_app in H. simpl in H.
      apply NoDup_remove_2 in H. intros I. apply H. apply in_or_app. now left.
Qed.

End PyFacts.

Lemma mem_In x s : mem x s = true <-> In x s.
Proof.
  unfold mem. rewrite existsb_exists. split.
  - intros [y [I E]]. apply String.eqb_eq in E. now subst.
  - intros I. exists x. split; [exact I | apply String.eqb_refl].
Qed.

Lemma In_add s x y : In y (add s x) <-> y = x \/ In y s.
Proof.
  unfold add. destruct (mem x s) eqn:E.
  - apply mem_In in E. split; [tauto | intros [->|]; assumption].
  - rewrite in_app_iff. simpl. intuition.
Qed.

Lemma In_fold_add l s y : In y (fold_left add l s) <-> In y s \/ In y l.
Proof.
  revert s. induction l as [|x l IH]; intros s; simpl.
  - tauto.
  - rewrite IH, In_add. intuition.
Qed.

Lemma In_union a b y : In y (union a b) <-> In y a \/ In y b.
Proof. apply In_fold_add. Qed.

Lemma In_set_of l y : In y (set_of l) <-> In y l.
Proof. unfold set_of. rewrite In_fold_add. simpl. tauto. Qed.

(* ================================================================== *)
(** ** The history store only grows *)

Lemma stored_set tbs name row name' h :
  stored (set tbs name row) name' h =
  if String.eqb name name' then get row h else stored tbs name' h.
Proof.
  unfold stored, get_or. rewrite get_set.
  destruct (String.eqb name name'); reflexivity.
Qed.

Lemma stored_touch tbs name name' h :
  stored (if contains tbs name then tbs else set tbs name []) name' h =
  stored tbs name' h.
Proof.
  destruct (contains tbs name) eqn:E; [reflexivity|].
  rewrite stored_set. destruct (String.eqb_spec name name') as [<-|]; [|reflexivity].
  unfold stored, get_or, contains in *. destruct (get tbs name); [discriminate|reflexivity].
Qed.

(** One step of [update_table_snaps]: the entry read afterwards is the one
    stored before, or, where none was stored, the snapshot's own. *)
Lemma update_table_snap_stored db_snapshot tbs n name h :
  stored (update_table_snap db_snapshot tbs n) name h =
  match stored tbs name h with
  | Some text => Some text
  | None =>
      match get db_snapshot n with
      | Some table_snap =>
          if String.eqb n name && String.eqb (sha table_snap) h
          then Some (sql table_snap) else None
      | None => None
      end
  end.
Proof.
  unfold update_table_snap.
  set (tbs1 := if contains tbs n then tbs else set tbs n []).
  assert (T : forall x y, stored tbs1 x y = stored tbs x y)
    by (intros; apply stored_touch).
  destruct (get db_snapshot n) as [table_snap|].
  2:{ rewrite T. destruct (stored tbs name h); reflexivity. }
  destruct (contains (get_or tbs1 n []) (sha table_snap)) eqn:C.
  - rewrite T. destruct (stored tbs name h) eqn:S; [reflexivity|].
    destruct (String.eqb_spec n name) as [->|]; [|reflexivity].
    destruct (String.eqb_spec (sha table_snap) h) as [<-|]; [|reflexivity].
    exfalso. rewrite <- T in S. unfold stored, contains in *.
    rewrite S in C. discriminate.
  - rewrite stored_set. destruct (String.eqb_spec n name) as [->|].
    + rewrite get_set. fold (stored tbs1 name h). rewrite T.
      destruct (String.eqb_spec (sha table_snap) h) as [<-|].
      * unfold contains in C. fold (stored tbs1 name (sha table_snap)) in C.
        rewrite T in C. destruct (stored tbs name (sha table_snap)); [discriminate|reflexivity].
      * simpl. destruct (stored tbs name h); reflexivity.
    + rewrite T. simpl. destruct (stored tbs name h); reflexivity.
Qed.

Lemma update_fold_keeps db_snapshot names tbs name h text :
  stored tbs name h = Some text ->
  stored (fold_left (update_table_snap db_snapshot) names tbs) name h = Some text.
Proof.
  revert tbs. induction names as [|n names IH]; intros tbs H; simpl; [exact H|].
  apply IH. rewrite update_table_snap_stored, H. reflexivity.
Qed.

Lemma update_fold_new db_snapshot names tbs name h text :
  stored (fold_left (update_table_snap db_snapshot) names tbs) name h = Some text ->
  stored tbs name h = Some text \/
  (stored tbs name h = None /\
   exists table_snap, get db_snapshot name = Some table_snap /\
     sha table_snap = h /\ sql table_snap = text).
Proof.
  revert tbs. induction names as [|n names IH]; intros tbs H; simpl in H; [now left|].
  apply IH in H. rewrite !update_table_snap_stored in H.
  destruct (stored tbs name h) as [t|] eqn:S.
  - left. destruct H as [H|[H _]]; congruence.
  - right. split; [reflexivity|].
    destruct (get db_snapshot n) as [table_snap|] eqn:G.
    + destruct (String.eqb_spec n name) as [->|]; simpl in H.
      * destruct (String.eqb_spec (sha table_snap) h) as [<-|].
        -- destruct H as [H|[H _]]; [|discriminate].
           exists table_snap. repeat split; congruence.
        -- destruct H as [H|[_ H]]; [discriminate|exact H].
      * destruct H as [H|[_ H]]; [discriminate|exact H].
    + destruct H as [H|[_ H]]; [discriminate|exact H].
Qed.

(* ================================================================== *)
(** ** What indexing leaves alone *)

Section Frame.

Variable string_sha : string -> string.

Lemma index_table_frame slug ss es acc table :
  let r := index_table string_sha slug ss es acc table in
  tables (fst r) = tables (fst acc) /\
  simple_starts (fst r) = simple_starts (fst acc) /\
  seq (fst r) = seq (fst acc).
Proof.
  destruct acc as [st out]. unfold index_table.
  destruct (String.eqb _ _); simpl; auto.
Qed.

Lemma index_tables_frame slug ss es names acc :
  let r := fold_left (index_table string_sha slug ss es) names acc in
  tables (fst r) = tables (fst acc) /\
  simple_starts (fst r) = simple_starts (fst acc) /\
  seq (fst r) = seq (fst acc).
Proof.
  revert acc. induction names as [|n names IH]; intros acc; simpl; [auto|].
  destruct (IH (index_table string_sha slug ss es acc n)) as (A & B & C).
  destruct (index_table_frame slug ss es acc n) as (A' & B' & C').
  repeat split; congruence.
Qed.

Lemma index_migration_frame slug mig st out :
  let r := index_migration string_sha slug mig (st, out) in
  tables (fst r) = tables st /\
  simple_starts (fst r) =
    set (simple_starts st) (snap_sha string_sha (start_shas mig)) slug /\
  seq (fst r) = seq st.
Proof.
  unfold index_migration.
  match goal with |- context [fold_left ?f ?l ?a] =>
    destruct (index_tables_frame slug (start_shas mig) (end_shas mig) l a)
      as (A & B & C) end.
  simpl in *. auto.
Qed.

Lemma add_migration_tables slug comment sql start_snap end_snap st :
  tables (fst (add_migration string_sha slug comment sql start_snap end_snap st)) =
  tables (update_table_snaps end_snap st).
Proof.
  unfold add_migration.
  match goal with |- context [index_migration ?h ?s ?m (?st1, ?o)] =>
    pose proof (index_migration_frame s m st1 o) as F;
    destruct (index_migration h s m (st1, o)) as [st2 out] end.
  simpl in *. destruct F as (F & _). now rewrite F.
Qed.

Lemma add_migration_seq slug comment sql start_snap end_snap st :
  seq (fst (add_migration string_sha slug comment sql start_snap end_snap st)) =
  set (seq st) slug
    (mkMigration comment (snap_to_shas start_snap) (snap_to_shas end_snap)
       (string_sha sql)).
Proof.
  unfold add_migration.
  match goal with |- context [index_migration ?h ?s ?m (?st1, ?o)] =>
    pose proof (index_migration_frame s m st1 o) as F;
    destruct (index_migration h s m (st1, o)) as [st2 out] end.
  simpl in *. destruct F as (_ & _ & F). now rewrite F.
Qed.

End Frame.

(** C9 (amended). [update_table_snaps] and [add_migration] only append to
    the history store.  [add_migration] changes the store exactly as
    [update_table_snaps] on the end snapshot does; a text stored under a
    hash of a table is still stored under it afterwards; and an entry read
    afterwards either was there before, or was absent and is the end
    snapshot's text and hash for that table.  (A forced [init] does remove
    entries: it starts from an empty store.) *)
Theorem history_append_only
    (string_sha : string -> string) (slug comment script : string)
    (start_snap end_snap : Snapshot) (st : PugPugState) (name h : string) :
  tables (fst (add_migration string_sha slug comment script start_snap end_snap st))
    = tables (update_table_snaps end_snap st) /\
  (forall text,
      stored (tables st) name h = Some text ->
      stored (tables (update_table_snaps end_snap st)) name h = Some text) /\
  (forall text,
      stored (tables (update_table_snaps end_snap st)) name h = Some text ->
      stored (tables st) name h = Some text \/
      (stored (tables st) name h = None /\
       exists table_snap, get end_snap name = Some table_snap /\
         sha table_snap = h /\ sql table_snap = text)).
Proof.
  split; [apply add_migration_tables|].
  unfold update_table_snaps; simpl. split; intros text H.
  - now apply update_fold_keeps.
  - now apply update_fold_new in H.
Qed.

(* ================================================================== *)
(** ** [is_up_to_date] needs a recorded migration *)

Lemma max_In l m : max l = Ok m -> In m l.
Proof.
  destruct l as [|x l]; simpl; [discriminate|].
  intros H. inversion H as [E]. clear H E.
  revert x. induction l as [|y l IH]; intros x; simpl; [now left|].
  destruct (IH (if String.ltb x y then y else x)) as [E|I].
  - destruct (String.ltb x y); [right; left | left]; exact E.
  - right. right. exact I.
Qed.

Lemma getitem_keys {V} (d : dict V) k : In k (keys d) -> exists v, getitem d k = Ok v.
Proof.
  intros I. unfold getitem. destruct (get d k) as [v|] eqn:E; [now exists v|].
  apply get_None_keys in E. tauto.
Qed.

(** C10. [is_up_to_date] raises on a state with no migration (the
    [max] of no keys) and returns a truth value on every other state, so
    a returned answer presupposes a recorded migration; [check], which
    calls it on the loaded state, raises likewise on an empty sequence
    file, and a returned answer of [check] presupposes a non-empty one. *)
Theorem is_up_to_date_partial (string_sha : string -> string) :
  (forall st db_snap,
      seq st = [] -> is_up_to_date string_sha st db_snap = Raise empty_max) /\
  (forall st db_snap,
      seq st <> [] -> exists b, is_up_to_date string_sha st db_snap = Ok b) /\
  (forall st db_snap b,
      is_up_to_date string_sha st db_snap = Ok b -> seq st <> []) /\
  (forall fs db_snap,
      sequence_file fs = Some [] ->
      check string_sha fs db_snap = ([], Raise empty_max)) /\
  (forall fs db_snap r,
      snd (check string_sha fs db_snap) = Ok r ->
      exists sq, sequence_file fs = Some sq /\ sq <> []).
Proof.
  assert (E : forall st db_snap,
             seq st = [] -> is_up_to_date string_sha st db_snap = Raise empty_max).
  { intros st db_snap H. unfold is_up_to_date. rewrite H. reflexivity. }
  assert (C : forall fs db_snap,
             sequence_file fs = Some [] ->
             check string_sha fs db_snap = ([], Raise empty_max)).
  { intros fs db_snap H. unfold check, load_all. rewrite H. reflexivity. }
  repeat split.
  - exact E.
  - intros st db_snap H. unfold is_up_to_date.
    destruct (max (keys (seq st))) as [k|e] eqn:M.
    + apply max_In in M. destruct (getitem_keys _ _ M) as [mig G].
      simpl. rewrite G. simpl. eauto.
    + destruct (seq st); [congruence | discriminate].
  - intros st db_snap b H N. rewrite (E _ _ N) in H. discriminate.
  - exact C.
  - intros fs db_snap r H. destruct (sequence_file fs) as [sq|] eqn:S.
    + exists sq. split; [reflexivity|]. intros ->.
      rewrite (C _ _ S) in H. discriminate.
    + unfold check, load_all in H. rewrite S in H. discriminate.
Qed.

(* ================================================================== *)
(** ** The validator *)

Section Validator.

Variable string_sha : string -> string.

Lemma changed_named mig name :
  start_of string_sha mig name <> end_of string_sha mig name -> In name (names_of mig).
Proof.
  intros H. unfold names_of. rewrite In_union, !In_set_of.
  destruct (in_dec string_dec name (keys (start_shas mig))) as [|N1]; [now left|].
  destruct (in_dec string_dec name (keys (end_shas mig))) as [|N2]; [now right|].
  exfalso. apply H. unfold start_of, end_of, get_or.
  apply get_None_keys in N1, N2. now rewrite N1, N2.
Qed.

Lemma check_table_In mig db_snap postrun bad n x :
  In x (check_table string_sha mig (snap_to_shas db_snap) postrun bad n) <->
  In x bad \/
  (x = n /\ start_of string_sha mig n <> end_of string_sha mig n /\
   live_of string_sha db_snap n <> expected_of string_sha mig postrun n).
Proof.
  unfold check_table, expected_of.
  fold (start_of string_sha mig n) (end_of string_sha mig n) (live_of string_sha db_snap n).
  destruct (String.eqb_spec (start_of string_sha mig n) (end_of string_sha mig n)) as [E|N]; simpl.
  - tauto.
  - destruct postrun; simpl.
    + rewrite andb_false_r.
      destruct (String.eqb_spec (end_of string_sha mig n) (live_of string_sha db_snap n)) as [E|N'];
        simpl; [|rewrite in_app_iff; simpl]; intuition congruence.
    + rewrite andb_true_r.
      destruct (String.eqb_spec (start_of string_sha mig n) (live_of string_sha db_snap n)) as [E|N'];
        simpl; [|rewrite in_app_iff; simpl]; intuition congruence.
Qed.

Lemma check_tables_In mig db_snap postrun names bad x :
  In x (fold_left (check_table string_sha mig (snap_to_shas db_snap) postrun)
          names bad) <->
  In x bad \/
  (In x names /\ start_of string_sha mig x <> end_of string_sha mig x /\
   live_of string_sha db_snap x <> expected_of string_sha mig postrun x).
Proof.
  revert bad. induction names as [|n names IH]; intros bad; simpl.
  - tauto.
  - rewrite IH, check_table_In. intuition (subst; auto).
Qed.

Lemma check_validity_recorded st slug mig db_snap postrun :
  get (seq st) slug = Some mig ->
  check_validity string_sha st slug db_snap postrun =
  Ok (match bad_tables_of string_sha mig db_snap postrun with
      | [] => None
      | _ :: _ => Some (bad_tables_of string_sha mig db_snap postrun)
      end).
Proof.
  intros H. unfold check_validity, getitem. rewrite H. reflexivity.
Qed.

Lemma bad_tables_of_In mig db_snap postrun x :
  In x (bad_tables_of string_sha mig db_snap postrun) <->
  start_of string_sha mig x <> end_of string_sha mig x /\
  live_of string_sha db_snap x <> expected_of string_sha mig postrun x.
Proof.
  unfold bad_tables_of. rewrite check_tables_In. simpl.
  split; [tauto|]. intros [C L]. right. split; [now apply changed_named | tauto].
Qed.

(** What [check_validity] returns for a recorded migration, in the hashes
    of [snap_to_shas]. *)
Lemma check_validity_live st slug mig db_snap postrun :
  get (seq st) slug = Some mig ->
  exists r,
    check_validity string_sha st slug db_snap postrun = Ok r /\
    (r = None <->
     forall name, start_of string_sha mig name <> end_of string_sha mig name ->
                  live_of string_sha db_snap name = expected_of string_sha mig postrun name) /\
    (forall bad, r = Some bad ->
       forall name, In name bad <->
         start_of string_sha mig name <> end_of string_sha mig name /\
         live_of string_sha db_snap name <> expected_of string_sha mig postrun name).
Proof.
  intros H. rewrite (check_validity_recorded st slug mig db_snap postrun H).
  eexists. split; [reflexivity|].
  pose proof (bad_tables_of_In mig db_snap postrun) as B.
  destruct (bad_tables_of string_sha mig db_snap postrun) as [|b bad'] eqn:E.
  - split.
    + split; [intros _ name C|reflexivity].
      destruct (string_dec (live_of string_sha db_snap name) (expected_of string_sha mig postrun name))
        as [|N]; [assumption|].
      exfalso. apply (proj2 (B name)). tauto.
    + discriminate.
  - split.
    + split; [discriminate|]. intros A. exfalso.
      destruct (proj1 (B b) (or_introl eq_refl)) as [C L]. apply L, A, C.
    + intros bad [= <-]. exact B.
Qed.

End Validator.

(* ================================================================== *)
(** ** The index of transforms *)

Section Index.

Variable string_sha : string -> string.

Local Notation "'E'" := (EMPTYSHA string_sha).

Lemma transform_set tt table row table' h :
  transform (set tt table row) table' h =
  if String.eqb table table' then get row h else transform tt table' h.
Proof. exact (stored_set tt table row table' h). Qed.

Lemma transform_touch tt table table' h :
  transform (if contains tt table then tt else set tt table []) table' h =
  transform tt table' h.
Proof. exact (stored_touch tt table table' h). Qed.

(** One step of the loop of [index_migration] writes the slug at
    [(table, start_sha)] when the table changes, and nothing else. *)
Lemma index_table_transform slug ss es st out n t h :
  transform
    (table_transforms (fst (index_table string_sha slug ss es (st, out) n))) t h =
  if String.eqb n t && negb (String.eqb (get_or ss n E) (get_or es n E))
     && String.eqb (get_or ss n E) h
  then Some slug
  else transform (table_transforms st) t h.
Proof.
  unfold index_table.
  destruct (String.eqb_spec (get_or ss n E) (get_or es n E)) as [Eq|Ne]; simpl.
  - rewrite transform_touch, andb_false_r. reflexivity.
  - rewrite transform_set, andb_true_r.
    destruct (String.eqb_spec n t) as [->|]; simpl.
    + rewrite get_set. fold (transform
        (if contains (table_transforms st) t then table_transforms st
         else set (table_transforms st) t []) t h).
      now rewrite transform_touch.
    + apply transform_touch.
Qed.

Lemma index_tables_transform slug ss es names acc t h :
  transform
    (table_transforms (fst (fold_left (index_table string_sha slug ss es) names acc)))
    t h =
  if existsb (fun n => String.eqb n t
                       && negb (String.eqb (get_or ss n E) (get_or es n E))
                       && String.eqb (get_or ss n E) h) names
  then Some slug
  else transform (table_transforms (fst acc)) t h.
Proof.
  revert acc. induction names as [|n names IH]; intros [st out];
    cbn [fold_left existsb].
  - reflexivity.
  - rewrite IH, index_table_transform.
    destruct (existsb _ names); [now rewrite orb_true_r|].
    rewrite orb_false_r. reflexivity.
Qed.

(** After [index_migration], the index maps [(table, h)] to the slug just
    indexed when the migration changes [table] from [h], and to what it
    mapped it to before otherwise. *)
Lemma index_migration_transform slug mig st out t h :
  transform
    (table_transforms (fst (index_migration string_sha slug mig (st, out)))) t h =
  if negb (String.eqb (start_of string_sha mig t) (end_of string_sha mig t))
     && String.eqb (start_of string_sha mig t) h
  then Some slug
  else transform (table_transforms st) t h.
Proof.
  unfold index_migration. rewrite index_tables_transform. simpl.
  fold (names_of mig).
  match goal with |- (if existsb ?f ?l then _ else _) = _ =>
    destruct (existsb f l) eqn:X end.
  - apply existsb_exists in X. destruct X as (n & _ & X).
    apply andb_prop in X. destruct X as [X X3].
    apply andb_prop in X. destruct X as [X1 X2].
    apply String.eqb_eq in X1. subst n.
    unfold start_of, end_of. now rewrite X2, X3.
  - destruct (negb _ && _) eqn:Y; [|reflexivity].
    apply andb_prop in Y. destruct Y as [Y1 Y2].
    assert (I : In t (names_of mig)).
    { apply (changed_named string_sha).
      destruct (String.eqb_spec (start_of string_sha mig t) (end_of string_sha mig t));
        [discriminate | assumption]. }
    assert (X' : existsb
       (fun n => String.eqb n t
                 && negb (String.eqb (get_or (start_shas mig) n E)
                                     (get_or (end_shas mig) n E))
                 && String.eqb (get_or (start_shas mig) n E) h) (names_of mig) = true).
    { apply existsb_exists. exists t. split; [exact I|].
      rewrite String.eqb_refl. unfold start_of, end_of in Y1, Y2.
      now rewrite Y1, Y2. }
    congruence.
Qed.

(** What is printed stays printed. *)
Lemma index_table_out slug ss es acc n m :
  In m (snd acc) -> In m (snd (index_table string_sha slug ss es acc n)).
Proof.
  destruct acc as [st out]. unfold index_table. simpl.
  destruct (String.eqb _ _); simpl; [tauto|].
  destruct (contains _ _); [rewrite in_app_iff|]; tauto.
Qed.

Lemma index_tables_out slug ss es names acc m :
  In m (snd acc) ->
  In m (snd (fold_left (index_table string_sha slug ss es) names acc)).
Proof.
  revert acc. induction names as [|n names IH]; intros acc H; simpl; [exact H|].
  apply IH, index_table_out, H.
Qed.

Lemma index_tables_warns slug ss es names acc t :
  In t names ->
  get_or ss t E <> get_or es t E ->
  transform (table_transforms (fst acc)) t (get_or ss t E) <> None ->
  In (WarnMultipleTransforms t (get_or ss t E))
     (snd (fold_left (index_table string_sha slug ss es) names acc)).
Proof.
  revert acc. induction names as [|n names IH]; intros [st out] I C T;
    simpl in I, T; cbn [fold_left].
  - tauto.
  - destruct (string_dec n t) as [->|N].
    + apply index_tables_out. unfold index_table.
      destruct (String.eqb_spec (get_or ss t E) (get_or es t E)); [tauto|].
      simpl. unfold contains at 1.
      fold (transform
        (if contains (table_transforms st) t then table_transforms st
         else set (table_transforms st) t []) t (get_or ss t E)).
      rewrite transform_touch.
      destruct (transform (table_transforms st) t (get_or ss t E)); [|congruence].
      rewrite in_app_iff. right. now left.
    + apply IH; [tauto | exact C |].
      pose proof (index_table_transform slug ss es st out n t (get_or ss t E)) as X.
      rewrite X. destruct (String.eqb_spec n t); [tauto|]. exact T.
Qed.

End Index.

(* ================================================================== *)
(** ** Two migrations from one state of a table *)

(** C6 (amended). When a migration changes a table from a hash the index
    already maps to a migration, [index_migration] returns (it is a total
    function), prints the warning for that table and hash, and the index
    maps the pair to the migration indexed now: the one registered last,
    not the one registered first. *)
Theorem index_migration_conflict
    (string_sha : string -> string) (slug : string) (mig : Migration)
    (st : PugPugState) (out : list Msg) (table prev : string) :
  start_of string_sha mig table <> end_of string_sha mig table ->
  transform (table_transforms st) table (start_of string_sha mig table)
    = Some prev ->
  In (WarnMultipleTransforms table (start_of string_sha mig table))
     (snd (index_migration string_sha slug mig (st, out))) /\
  transform (table_transforms (fst (index_migration string_sha slug mig (st, out))))
    table (start_of string_sha mig table) = Some slug.
Proof.
  intros C T. split.
  - unfold index_migration. apply index_tables_warns.
    + apply (changed_named string_sha), C.
    + exact C.
    + simpl. unfold start_of in T. rewrite T. discriminate.
  - rewrite index_migration_transform.
    destruct (String.eqb_spec (start_of string_sha mig table)
                              (end_of string_sha mig table)); [tauto|].
    now rewrite String.eqb_refl.
Qed.

(* ================================================================== *)
(** ** The state [load_all] builds *)

Section Loaded.

Variable string_sha : string -> string.

Lemma index_all_frame sq acc :
  tables (fst (index_all string_sha sq acc)) = tables (fst acc) /\
  seq (fst (index_all string_sha sq acc)) = seq (fst acc).
Proof.
  unfold index_all. revert acc.
  induction sq as [|[slug mig] sq IH]; intros [st out]; cbn [fold_left fst snd].
  - auto.
  - destruct (IH (index_migration string_sha slug mig (st, out))) as [A B].
    destruct (index_migration_frame string_sha slug mig st out) as (A' & _ & B').
    split; congruence.
Qed.

Lemma index_all_simple sq acc q :
  get (simple_starts (fst (index_all string_sha sq acc))) q =
  fold_left
    (fun r sm => if String.eqb (snap_sha string_sha (start_shas (snd sm))) q
                 then Some (fst sm) else r)
    sq (get (simple_starts (fst acc)) q).
Proof.
  unfold index_all. revert acc.
  induction sq as [|[slug mig] sq IH]; intros [st out]; cbn [fold_left fst snd].
  - reflexivity.
  - rewrite IH.
    destruct (index_migration_frame string_sha slug mig st out) as (_ & S & _).
    rewrite S, get_set. reflexivity.
Qed.

Lemma index_all_slugs sq acc t h m :
  transform (table_transforms (fst (index_all string_sha sq acc))) t h = Some m ->
  In m (keys sq) \/ transform (table_transforms (fst acc)) t h = Some m.
Proof.
  unfold index_all. revert acc.
  induction sq as [|[slug mig] sq IH]; intros [st out]; cbn [fold_left fst snd].
  - now right.
  - intros H. apply IH in H. destruct H as [H|H].
    + left. now right.
    + rewrite index_migration_transform in H.
      destruct (negb _ && _); [left; left; simpl; congruence | now right].
Qed.

Lemma load_tables_keys fs names acc tb t :
  load_tables fs names acc = Ok tb ->
  In t (keys tb) <-> In t (keys acc) \/ In t names.
Proof.
  revert acc. induction names as [|n names IH]; intros acc H; simpl in *.
  - inversion H. tauto.
  - destruct (table_file fs n); [|discriminate].
    rewrite (IH _ H), keys_set. intuition.
Qed.

(** The joint-hash index of a loaded state answers with the migration
    indexed last; every slug of its transform index is a key of the
    sequence; and the tables with a history are the indexed ones. *)
Lemma load_all_state fs st out :
  load_all string_sha fs = Ok (st, out) ->
  sequence_file fs = Some (seq st) /\
  (forall q, get (simple_starts st) q = last_start string_sha (seq st) q) /\
  (forall t h m, transform (table_transforms st) t h = Some m ->
                 In m (keys (seq st))) /\
  (forall t, In t (keys (tables st)) <-> In t (keys (table_transforms st))).
Proof.
  unfold load_all. destruct (sequence_file fs) as [sq|]; [|discriminate].
  pose proof (index_all_frame sq (mkState [] [] [] [] sq, [])) as F.
  pose proof (index_all_simple sq (mkState [] [] [] [] sq, [])) as S.
  pose proof (index_all_slugs sq (mkState [] [] [] [] sq, [])) as T.
  destruct (index_all string_sha sq (mkState [] [] [] [] sq, [])) as [st1 out1].
  simpl in F, S, T. destruct F as [_ F].
  destruct (load_tables fs (keys (table_transforms st1)) []) as [tb|] eqn:L;
    [|discriminate].
  simpl. intros [= <- <-]. simpl. repeat split.
  - now rewrite F.
  - intros q. rewrite S, F. reflexivity.
  - intros t h m H. rewrite F. destruct (T t h m H) as [I|X]; [exact I|].
    discriminate.
  - rewrite (load_tables_keys fs _ _ tb t L). simpl. tauto.
  - rewrite (load_tables_keys fs _ _ tb t L). simpl. tauto.
Qed.

Lemma app_tail_split {A} (l l1 l2 : list A) (a x : A) :
  l ++ [a] = l1 ++ x :: l2 ->
  (l2 = [] /\ l = l1 /\ a = x) \/
  (exists l2', l2 = l2' ++ [a] /\ l = l1 ++ x :: l2').
Proof.
  destruct l2 as [|y l2] using rev_ind; intros H.
  - left. apply app_inj_tail in H. tauto.
  - right. exists l2. clear IHl2.
    change (l1 ++ x :: l2 ++ [y]) with (l1 ++ (x :: l2) ++ [y]) in H.
    rewrite app_assoc in H. apply app_inj_tail in H. destruct H as [-> ->].
    tauto.
Qed.

Lemma last_start_snoc sq sm q :
  last_start string_sha (sq ++ [sm]) q =
  if String.eqb (snap_sha string_sha (start_shas (snd sm))) q
  then Some (fst sm) else last_start string_sha sq q.
Proof. unfold last_start. rewrite fold_left_app. reflexivity. Qed.

(** [last_start] names the last migration, in the order of the sequence,
    whose start state has the joint hash asked for. *)
Lemma last_start_Some sq q M :
  last_start string_sha sq q = Some M <->
  exists l1 mig l2,
    sq = l1 ++ (M, mig) :: l2 /\
    snap_sha string_sha (start_shas mig) = q /\
    forall sm, In sm l2 -> snap_sha string_sha (start_shas (snd sm)) <> q.
Proof.
  induction sq as [|[slug mig] sq IH] using rev_ind.
  - split; [discriminate|]. intros (l1 & m & l2 & H & _).
    destruct l1; discriminate.
  - rewrite last_start_snoc. simpl.
    destruct (String.eqb_spec (snap_sha string_sha (start_shas mig)) q) as [Q|Q].
    + split.
      * intros [= <-]. exists sq, mig, []. simpl. tauto.
      * intros (l1 & m & l2 & H & Hq & Hl).
        apply app_tail_split in H. destruct H as [(_ & _ & H)|(l2' & -> & _)].
        -- congruence.
        -- exfalso. apply (Hl (slug, mig)); [|exact Q].
           apply in_or_app. right. now left.
    + rewrite IH. split.
      * intros (l1 & m & l2 & -> & Hq & Hl).
        exists l1, m, (l2 ++ [(slug, mig)]). repeat split.
        -- now rewrite <- app_assoc.
        -- exact Hq.
        -- intros sm I. apply in_app_or in I. destruct I as [I|[<-|[]]];
             [now apply Hl | exact Q].
      * intros (l1 & m & l2 & H & Hq & Hl).
        apply app_tail_split in H. destruct H as [(_ & _ & H)|(l2' & -> & ->)].
        -- inversion H; subst. contradiction.
        -- exists l1, m, l2'. repeat split; [exact Hq|].
           intros sm I. apply Hl. apply in_or_app. now left.
Qed.

Lemma last_start_None sq q :
  last_start string_sha sq q = None <->
  forall slug mig, In (slug, mig) sq ->
                   snap_sha string_sha (start_shas mig) <> q.
Proof.
  induction sq as [|[slug mig] sq IH] using rev_ind.
  - split; [intros _ ? ? []|reflexivity].
  - rewrite last_start_snoc. simpl.
    destruct (String.eqb_spec (snap_sha string_sha (start_shas mig)) q) as [Q|Q].
    + split; [discriminate|]. intros H. exfalso.
      apply (H slug mig); [|exact Q]. apply in_or_app. right. now left.
    + rewrite IH. split; intros H s m I.
      * apply in_app_or in I. destruct I as [I|[[= <- <-]|[]]];
          [now apply (H s m) | exact Q].
      * apply (H s m). apply in_or_app. now left.
Qed.

End Loaded.

(** C1 (amended). On a loaded state, simple resolution returns a slug
    exactly when that slug is the last migration, in the order [load_all]
    enumerates the sequence, whose recorded start state has the joint hash
    of the snapshot; it returns none exactly when no recorded migration
    has a start state with that joint hash. *)
Theorem find_next_migration_simple_last
    (string_sha : string -> string) (fs : Files) (st : PugPugState)
    (out : list Msg) (db_snap : Snapshot) :
  load_all string_sha fs = Ok (st, out) ->
  (forall M,
      find_next_migration_simple string_sha st db_snap = Some M <->
      exists l1 mig l2,
        seq st = l1 ++ (M, mig) :: l2 /\
        snap_sha string_sha (start_shas mig)
          = snap_sha string_sha (snap_to_shas db_snap) /\
        forall sm, In sm l2 ->
          snap_sha string_sha (start_shas (snd sm))
            <> snap_sha string_sha (snap_to_shas db_snap)) /\
  (find_next_migration_simple string_sha st db_snap = None <->
   forall slug mig, In (slug, mig) (seq st) ->
     snap_sha string_sha (start_shas mig)
       <> snap_sha string_sha (snap_to_shas db_snap)).
Proof.
  intros L. destruct (load_all_state string_sha fs st out L) as (_ & S & _).
  unfold find_next_migration_simple. rewrite S. split.
  - intros M. apply last_start_Some.
  - apply last_start_None.
Qed.

(* ================================================================== *)
(** ** Advanced resolution *)

Section Advanced.

Variable string_sha : string -> string.

Lemma get_touch (nm : dict (list string)) m m' :
  get (if contains nm m then nm else set nm m []) m' =
  match get nm m' with
  | Some g => Some g
  | None => if negb (contains nm m) && String.eqb m m' then Some [] else None
  end.
Proof.
  destruct (contains nm m) eqn:C; simpl.
  - destruct (get nm m'); reflexivity.
  - rewrite get_set. destruct (String.eqb_spec m m') as [<-|].
    + unfold contains in C. destruct (get nm m); [discriminate|reflexivity].
    + destruct (get nm m'); reflexivity.
Qed.

(** One step of the scan: the groups, the error list and the messages. *)
Lemma scan_table_groups st db_snap sc out n m t :
  In t (get_or (next_migs (fst (scan_table string_sha st (snap_to_shas db_snap)
                                  (sc, out) n))) m []) <->
  In t (get_or (next_migs sc) m []) \/
  (t = n /\ next_of string_sha st db_snap n = Some m).
Proof.
  unfold scan_table, next_of, live_of.
  fold (transform (table_transforms st) n
          (get_or (snap_to_shas db_snap) n (EMPTYSHA string_sha))).
  destruct (transform (table_transforms st) n _) as [m0|].
  - cbn [fst next_migs]. unfold get_or at 1. rewrite get_set.
    destruct (String.eqb_spec m0 m) as [->|N].
    + rewrite in_app_iff. unfold get_or at 1. rewrite get_touch.
      unfold get_or. simpl.
      destruct (get (next_migs sc) m); simpl.
      * intuition congruence.
      * destruct (negb _ && _); simpl; intuition congruence.
    + rewrite get_touch. unfold get_or.
      destruct (get (next_migs sc) m); simpl.
      * intuition congruence.
      * destruct (String.eqb_spec m0 m); [contradiction|].
        rewrite andb_false_r. simpl. intuition congruence.
  - destruct (mem _ (seen st)); simpl; intuition congruence.
Qed.

Lemma scan_table_nonempty st db_shas sc out n :
  (forall m g, get (next_migs sc) m = Some g -> g <> []) ->
  forall m g,
    get (next_migs (fst (scan_table string_sha st db_shas (sc, out) n))) m = Some g ->
    g <> [].
Proof.
  intros Inv m g. unfold scan_table.
  destruct (get (get_or (table_transforms st) n []) _) as [m0|].
  - cbn [fst next_migs]. rewrite get_set.
    destruct (String.eqb_spec m0 m) as [->|N].
    + intros [= <-]. intros X. apply app_eq_nil in X. destruct X; discriminate.
    + rewrite get_touch. destruct (get (next_migs sc) m) eqn:G.
      * intros [= <-]. eapply Inv, G.
      * destruct (String.eqb_spec m0 m); [contradiction|].
        rewrite andb_false_r. discriminate.
  - destruct (mem _ (seen st)); simpl; apply Inv.
Qed.

Lemma scan_table_error st db_snap sc out n t :
  In t (error (fst (scan_table string_sha st (snap_to_shas db_snap) (sc, out) n))) <->
  In t (error sc) \/
  (t = n /\ next_of string_sha st db_snap n = None /\
   ~ In (live_of string_sha db_snap n) (seen st)).
Proof.
  unfold scan_table, next_of, live_of.
  fold (transform (table_transforms st) n
          (get_or (snap_to_shas db_snap) n (EMPTYSHA string_sha))).
  destruct (transform (table_transforms st) n _) as [m0|].
  - simpl. intuition congruence.
  - destruct (mem _ (seen st)) eqn:M; simpl.
    + apply mem_In in M. intuition congruence.
    + rewrite in_app_iff. simpl.
      assert (~ In (get_or (snap_to_shas db_snap) n (EMPTYSHA string_sha)) (seen st)).
      { intros I. apply mem_In in I. congruence. }
      intuition congruence.
Qed.

Lemma scan_groups st db_snap names acc m t :
  In t (get_or (next_migs (fst (fold_left (scan_table string_sha st
                                             (snap_to_shas db_snap)) names acc))) m []) <->
  In t (get_or (next_migs (fst acc)) m []) \/
  (In t names /\ next_of string_sha st db_snap t = Some m).
Proof.
  revert acc. induction names as [|n names IH]; intros [sc out]; cbn [fold_left].
  - simpl. tauto.
  - rewrite IH, scan_table_groups. simpl. intuition (subst; auto).
Qed.

Lemma scan_nonempty st db_shas names acc :
  (forall m g, get (next_migs (fst acc)) m = Some g -> g <> []) ->
  forall m g,
    get (next_migs (fst (fold_left (scan_table string_sha st db_shas) names acc)))
      m = Some g ->
    g <> [].
Proof.
  revert acc. induction names as [|n names IH]; intros [sc out] Inv;
    cbn [fold_left].
  - exact Inv.
  - apply IH. apply scan_table_nonempty. exact Inv.
Qed.

Lemma scan_error st db_snap names acc t :
  In t (error (fst (fold_left (scan_table string_sha st (snap_to_shas db_snap))
                      names acc))) <->
  In t (error (fst acc)) \/
  (In t names /\ next_of string_sha st db_snap t = None /\
   ~ In (live_of string_sha db_snap t) (seen st)).
Proof.
  revert acc. induction names as [|n names IH]; intros [sc out]; cbn [fold_left].
  - simpl. tauto.
  - rewrite IH, scan_table_error. simpl. intuition (subst; auto).
Qed.

(** The report raises on no candidate that is in the sequence. *)
Lemma advanced_report_ok st db_snap items out :
  (forall m ts, In (m, ts) items -> In m (keys (seq st))) ->
  exists out', advanced_report string_sha st db_snap items out = (out', Ok tt).
Proof.
  revert out. induction items as [|[m ts] items IH]; intros out H; simpl.
  - eauto.
  - assert (I : In m (keys (seq st))) by (apply (H m ts); now left).
    apply get_None_keys_not in I.
    destruct (get (seq st) m) as [mig|] eqn:G; [|contradiction].
    rewrite (check_validity_recorded string_sha st m mig db_snap false G).
    destruct (bad_tables_of string_sha mig db_snap false);
      apply IH; intros m' ts' I'; apply (H m' ts'); now right.
Qed.

Lemma scan_table_printed st db_snap sc out n :
  (forall t, In t (error sc) -> error_printed string_sha db_snap out t) ->
  forall t,
    In t (error (fst (scan_table string_sha st (snap_to_shas db_snap) (sc, out) n))) ->
    error_printed string_sha db_snap
      (snd (scan_table string_sha st (snap_to_shas db_snap) (sc, out) n)) t.
Proof.
  intros Inv t. unfold scan_table, error_printed, live_of.
  destruct (get (get_or (table_transforms st) n []) _) as [m0|].
  - simpl. apply Inv.
  - destruct (mem _ (seen st)); simpl; [apply Inv|].
    rewrite in_app_iff. intros [I|[<-|[]]].
    + destruct (Inv t I); rewrite !in_app_iff; tauto.
    + rewrite !in_app_iff. simpl.
      destruct (contains (tables st) n); tauto.
Qed.

Lemma scan_printed st db_snap names acc :
  (forall t, In t (error (fst acc)) -> error_printed string_sha db_snap (snd acc) t) ->
  forall t,
    In t (error (fst (fold_left (scan_table string_sha st (snap_to_shas db_snap))
                        names acc))) ->
    error_printed string_sha db_snap
      (snd (fold_left (scan_table string_sha st (snap_to_shas db_snap)) names acc)) t.
Proof.
  revert acc. induction names as [|n names IH]; intros [sc out] Inv;
    cbn [fold_left].
  - exact Inv.
  - apply IH. apply scan_table_printed. exact Inv.
Qed.

Lemma advanced_report_out st db_snap items out m :
  In m out -> In m (fst (advanced_report string_sha st db_snap items out)).
Proof.
  revert out. induction items as [|[s ts] items IH]; intros out H; simpl.
  - exact H.
  - destruct (check_validity string_sha st s db_snap false) as [[bad|]|e];
      [apply IH, in_or_app; now left | apply IH, in_or_app; now left | exact H].
Qed.

Lemma advanced_scan_nonempty st db_snap m g :
  get (next_migs (fst (advanced_scan string_sha st db_snap))) m = Some g -> g <> [].
Proof.
  unfold advanced_scan. apply scan_nonempty. discriminate.
Qed.

(** The groups of the scan: a table is in the group of a slug exactly when
    it is one of the tables scanned and the index maps it to that slug. *)
Lemma advanced_scan_groups st db_snap m t :
  (exists g, get (next_migs (fst (advanced_scan string_sha st db_snap))) m = Some g
             /\ In t g) <->
  In t (all_tables st db_snap) /\ next_of string_sha st db_snap t = Some m.
Proof.
  pose proof (scan_groups st db_snap (all_tables st db_snap)
                (mkScan [] [] [] [], []) m t) as G.
  fold (advanced_scan string_sha st db_snap) in G.
  simpl in G. unfold get_or in G.
  destruct (get (next_migs (fst (advanced_scan string_sha st db_snap))) m) as [g|].
  - split.
    + intros (g' & [= <-] & I). tauto.
    + intros X. exists g. split; [reflexivity | tauto].
  - split.
    + intros (g' & X & _). discriminate.
    + intros X. exfalso. simpl in G. tauto.
Qed.

End Advanced.

(** C3 (amended). On a loaded state, advanced resolution returns, for
    every snapshot.  What it returns is absent exactly when no table of
    the snapshot or of the history is mapped by the index to a migration
    at its present hash; otherwise it is a mapping whose groups are not
    empty and hold, for each slug, exactly the tables the index maps to
    that slug.  The tables in an unknown state (no migration from their
    hash, and a hash never seen) are collected in the local list [error]
    and printed; they are in no group and are not part of what is
    returned. *)
Theorem find_next_migration_advanced_groups
    (string_sha : string -> string) (fs : Files) (st : PugPugState)
    (out0 : list Msg) (db_snap : Snapshot) :
  load_all string_sha fs = Ok (st, out0) ->
  exists out r,
    find_next_migration_advanced string_sha st db_snap = (out, Ok r) /\
    (r = None <->
     forall t, In t (all_tables st db_snap) ->
               next_of string_sha st db_snap t = None) /\
    (forall groups, r = Some groups ->
       (forall m g, get groups m = Some g -> g <> []) /\
       (forall m t,
          (exists g, get groups m = Some g /\ In t g) <->
          In t (all_tables st db_snap) /\
          next_of string_sha st db_snap t = Some m)) /\
    (forall t,
       In t (error (fst (advanced_scan string_sha st db_snap))) <->
       In t (all_tables st db_snap) /\
       next_of string_sha st db_snap t = None /\
       ~ In (live_of string_sha db_snap t) (seen st)) /\
    (forall t,
       In t (error (fst (advanced_scan string_sha st db_snap))) ->
       error_printed string_sha db_snap out t).
Proof.
  intros L.
  destruct (load_all_state string_sha fs st out0 L) as (_ & _ & Slugs & _).
  unfold find_next_migration_advanced.
  pose proof (advanced_scan_nonempty string_sha st db_snap) as NE'.
  pose proof (advanced_scan_groups string_sha st db_snap) as G'.
  pose proof (fun t => scan_error string_sha st db_snap
                (all_tables st db_snap) (mkScan [] [] [] [], []) t) as Er.
  pose proof (scan_printed string_sha st db_snap
                (all_tables st db_snap) (mkScan [] [] [] [], [])) as Pr.
  fold (advanced_scan string_sha st db_snap) in Er, Pr.
  destruct (advanced_scan string_sha st db_snap) as [sc out1].
  cbn [fst snd next_migs error] in G', NE', Er, Pr.
  assert (K : forall m ts, In (m, ts) (next_migs sc) -> In m (keys (seq st))).
  { intros m ts I.
    assert (Ik : In m (keys (next_migs sc)))
      by (change m with (fst (m, ts)); now apply in_map).
    apply get_None_keys_not in Ik.
    destruct (get (next_migs sc) m) as [g|] eqn:Gm; [|contradiction].
    destruct g as [|t g]; [exfalso; now apply (NE' m [])|].
    destruct (proj1 (G' m t)) as [_ X]; [exists (t :: g); simpl; auto|].
    apply (Slugs t _ m X). }
  pose proof (advanced_report_out string_sha st db_snap (next_migs sc) out1) as Mono.
  destruct (advanced_report_ok string_sha st db_snap (next_migs sc) out1 K)
    as [out' R].
  rewrite R in *. simpl in Mono.
  exists out'. eexists. split; [reflexivity|].
  split; [|split; [|split]].
  - destruct (next_migs sc) as [|[m g] nm] eqn:N.
    + split; [intros _ t I|reflexivity].
      destruct (next_of string_sha st db_snap t) as [m|] eqn:X; [|reflexivity].
      destruct (proj2 (G' m t) (conj I X)) as (g & Y & _). discriminate.
    + split; [discriminate|]. intros H. exfalso.
      assert (Gm : get ((m, g) :: nm) m = Some g)
        by (simpl; now rewrite String.eqb_refl).
      destruct g as [|t g]; [now apply (NE' m [])|].
      destruct (proj1 (G' m t)) as [I X]; [exists (t :: g); simpl; auto|].
      rewrite (H t I) in X. discriminate.
  - intros groups Hr.
    assert (groups = next_migs sc)
      by (destruct (next_migs sc); [discriminate | congruence]).
    subst groups. split; [exact NE' | exact G'].
  - intros t. rewrite Er. simpl. tauto.
  - intros t I. destruct (Pr (fun _ F => match F with end) t I) as [P|P];
      [left | right]; apply Mono, P.
Qed.

(* ================================================================== *)
(** ** The joint hash does not depend on the order of the entries *)

Lemma ascii_compare_refl c : Ascii.compare c c = Eq.
Proof. unfold Ascii.compare. apply N.compare_refl. Qed.

Lemma ascii_compare_lt_trans a b c :
  Ascii.compare a b = Lt -> Ascii.compare b c = Lt -> Ascii.compare a c = Lt.
Proof.
  unfold Ascii.compare. rewrite !N.compare_lt_iff. apply N.lt_trans.
Qed.

Lemma string_leb_trans a b c :
  String.leb a b = true -> String.leb b c = true -> String.leb a c = true.
Proof.
  unfold String.leb. revert b c.
  induction a as [|x a IH]; intros [|y b] [|z c]; simpl; try congruence.
  destruct (Ascii.compare x y) eqn:XY; destruct (Ascii.compare y z) eqn:YZ;
    try congruence.
  - apply Ascii.compare_eq_iff in XY, YZ. subst.
    rewrite ascii_compare_refl. apply IH.
  - apply Ascii.compare_eq_iff in XY. subst. now rewrite YZ.
  - apply Ascii.compare_eq_iff in YZ. subst. now rewrite XY.
  - now rewrite (ascii_compare_lt_trans _ _ _ XY YZ).
Qed.

Lemma string_leb_false a b : String.leb a b = false -> String.leb b a = true.
Proof.
  intros H. destruct (String.leb_total a b) as [X|X]; congruence.
Qed.

(** Inserting two keys commutes, whatever the list. *)
Lemma insert_insert a b l : insert a (insert b l) = insert b (insert a l).
Proof.
  induction l as [|y l IH]; simpl.
  - destruct (String.leb a b) eqn:AB, (String.leb b a) eqn:BA; try reflexivity.
    + now rewrite (String.leb_antisym _ _ AB BA).
    + apply string_leb_false in AB. congruence.
  - destruct (String.leb b y) eqn:BY, (String.leb a y) eqn:AY; simpl.
    + destruct (String.leb a b) eqn:AB, (String.leb b a) eqn:BA;
        rewrite ?BY, ?AY; try reflexivity.
      * now rewrite (String.leb_antisym _ _ AB BA).
      * apply string_leb_false in AB. congruence.
    + rewrite BY.
      destruct (String.leb a b) eqn:AB.
      * rewrite (string_leb_trans _ _ _ AB BY) in AY. discriminate.
      * now rewrite AY.
    + rewrite AY.
      destruct (String.leb b a) eqn:BA.
      * rewrite (string_leb_trans _ _ _ BA AY) in BY. discriminate.
      * now rewrite BY.
    + rewrite AY, BY. now rewrite IH.
Qed.

Lemma sorted_Permutation l1 l2 : Permutation l1 l2 -> sorted l1 = sorted l2.
Proof.
  induction 1; simpl.
  - reflexivity.
  - now rewrite IHPermutation.
  - apply insert_insert.
  - congruence.
Qed.

Lemma wf_NoDup {V} (d : dict V) : wf d -> NoDup d.
Proof. unfold wf, keys. apply NoDup_map_inv. Qed.

Lemma same_entries_get {V} (d1 d2 : dict V) :
  wf d1 -> wf d2 ->
  (forall k v, In (k, v) d1 <-> In (k, v) d2) ->
  forall k, get d1 k = get d2 k.
Proof.
  intros W1 W2 H k.
  destruct (get d1 k) as [v|] eqn:G1.
  - symmetry. apply In_get; [exact W2|]. apply H, get_In, G1.
  - destruct (get d2 k) as [v|] eqn:G2; [|reflexivity].
    apply get_In, H, (In_get _ _ _ W1) in G2. congruence.
Qed.

Lemma same_entries_keys {V} (d1 d2 : dict V) :
  wf d1 -> wf d2 ->
  (forall k v, In (k, v) d1 <-> In (k, v) d2) ->
  Permutation (keys d1) (keys d2).
Proof.
  intros W1 W2 H. unfold keys. apply Permutation_map.
  apply NoDup_Permutation; [now apply wf_NoDup | now apply wf_NoDup |].
  intros [k v]. apply H.
Qed.

(** C8. Two hash maps with the same (table, hash) pairs, in whatever
    order the pairs were inserted or are enumerated, have the same joint
    hash. *)
Theorem snap_sha_order_independent
    (string_sha : string -> string) (s1 s2 : dict string) :
  wf s1 -> wf s2 ->
  (forall table h, In (table, h) s1 <-> In (table, h) s2) ->
  snap_sha string_sha s1 = snap_sha string_sha s2.
Proof.
  intros W1 W2 H. unfold snap_sha. f_equal. f_equal.
  rewrite (sorted_Permutation _ _ (same_entries_keys s1 s2 W1 W2 H)).
  apply map_ext. intros k. unfold get_or.
  now rewrite (same_entries_get s1 s2 W1 W2 H k).
Qed.

(* ================================================================== *)
(** ** The hash maps of a snapshot *)

Lemma keys_of_list {V} (l : list (string * V)) k :
  In k (keys (of_list l)) <-> In k (map fst l).
Proof.
  unfold of_list.
  enough (G : forall acc : dict V,
             In k (keys (fold_left (fun d kv => set d (fst kv) (snd kv)) l acc)) <->
             In k (keys acc) \/ In k (map fst l))
    by (rewrite G; simpl; tauto).
  induction l as [|[k0 v0] l IH]; intros acc; simpl.
  - tauto.
  - rewrite IH, keys_set. intuition.
Qed.

Lemma keys_snap_to_shas (snap : Snapshot) t :
  In t (keys (snap_to_shas snap)) <-> In t (keys snap).
Proof.
  unfold snap_to_shas. rewrite keys_of_list, map_map. simpl. reflexivity.
Qed.

Lemma snap_to_shas_wf (snap : Snapshot) :
  wf snap -> snap_to_shas snap = map (fun ti => (fst ti, sha (snd ti))) snap.
Proof.
  intros W. unfold snap_to_shas. apply of_list_wf.
  unfold wf, keys in *. now rewrite map_map.
Qed.

Lemma get_snap_to_shas (snap : Snapshot) t :
  wf snap ->
  get (snap_to_shas snap) t =
  match get snap t with Some info => Some (sha info) | None => None end.
Proof.
  intros W. rewrite (snap_to_shas_wf snap W). clear W.
  induction snap as [|[k v] snap IH]; simpl; [reflexivity|].
  destruct (String.eqb k t); [reflexivity | exact IH].
Qed.

Lemma wf_set {V} (d : dict V) k v : wf d -> wf (set d k v).
Proof.
  unfold wf. induction d as [|[k0 v0] d IH]; simpl; intros W.
  - constructor; [tauto | constructor].
  - inversion W as [|? ? N W']; subst.
    destruct (String.eqb_spec k0 k) as [->|Ne]; simpl.
    + now constructor.
    + constructor; [|now apply IH].
      fold (keys (set d k v)). rewrite keys_set. intros [X|X]; congruence.
Qed.

(** The hash [snap_to_shas] gives a table is the [sha] of its entry in
    the snapshot. *)
Lemma live_of_snapshot_sha (string_sha : string -> string)
    (db_snap : Snapshot) name :
  wf db_snap ->
  live_of string_sha db_snap name = snapshot_sha string_sha db_snap name.
Proof.
  intros W. unfold live_of, snapshot_sha, get_or.
  rewrite (get_snap_to_shas db_snap name W).
  now destruct (get db_snap name).
Qed.

(** C2. For a recorded migration and a snapshot (a dictionary: each table
    once), [check_validity] returns; it reports no violation exactly when
    every table of the change-set has, as the [sha] of its entry in the
    snapshot ([EMPTYSHA] when it has no entry), the start hash (before the
    run) or the end hash (after the run); and a list it returns holds
    exactly the tables of the change-set for which that hash is another. *)
Theorem check_validity_correct
    (string_sha : string -> string) (st : PugPugState) (slug : string)
    (mig : Migration) (db_snap : Snapshot) (postrun : bool) :
  wf db_snap ->
  get (seq st) slug = Some mig ->
  exists r,
    check_validity string_sha st slug db_snap postrun = Ok r /\
    (r = None <->
     forall name,
       start_of string_sha mig name <> end_of string_sha mig name ->
       snapshot_sha string_sha db_snap name
         = expected_of string_sha mig postrun name) /\
    (forall bad, r = Some bad ->
       forall name, In name bad <->
         start_of string_sha mig name <> end_of string_sha mig name /\
         snapshot_sha string_sha db_snap name
           <> expected_of string_sha mig postrun name).
Proof.
  intros W H.
  destruct (check_validity_live string_sha st slug mig db_snap postrun H)
    as (r & C & N & B).
  exists r. split; [exact C|]. split.
  - rewrite N. split; intros A name D.
    + rewrite <- (live_of_snapshot_sha string_sha db_snap name W). now apply A.
    + rewrite (live_of_snapshot_sha string_sha db_snap name W). now apply A.
  - intros bad E name. rewrite (B bad E name).
    now rewrite (live_of_snapshot_sha string_sha db_snap name W).
Qed.

(** C4 (amended). The record [add_migration] stores under the slug has
    as keys of [start_shas] the tables of the start snapshot and as keys of
    [end_shas] the tables of the end snapshot; the record [init] stores has
    no start key at all, and the tables of the database as end keys. *)
Theorem add_migration_record_keys
    (string_sha slugify : string -> string) :
  (forall slug comment script start_snap end_snap st,
      exists mig,
        get (seq (fst (add_migration string_sha slug comment script
                         start_snap end_snap st))) slug = Some mig /\
        (forall t, In t (keys (start_shas mig)) <-> In t (keys start_snap)) /\
        (forall t, In t (keys (end_shas mig)) <-> In t (keys end_snap))) /\
  (forall now dirs fs force full_create db_snap st out,
      init string_sha slugify now dirs fs force full_create db_snap = Ok (st, out) ->
      exists mig,
        get (seq st) (mk_slug slugify now "Initial Leap.") = Some mig /\
        start_shas mig = [] /\
        (forall t, In t (keys (end_shas mig)) <-> In t (keys db_snap))).
Proof.
  split.
  - intros. rewrite add_migration_seq, get_set_eq. eexists. split; [reflexivity|].
    simpl. split; intros t; apply keys_snap_to_shas.
  - intros now dirs fs force full_create db_snap st out. unfold init.
    destruct (init_from_zero dirs fs force) as [st0|]; simpl; [|discriminate].
    intros [= H]. apply (f_equal fst) in H. simpl in H. subst st.
    rewrite add_migration_seq, get_set_eq. eexists. split; [reflexivity|].
    simpl. split; [reflexivity|]. intros t; apply keys_snap_to_shas.
Qed.

(* ================================================================== *)
(** ** A table missing from the snapshot *)

Section Missing.

Variable string_sha : string -> string.

(** A snapshot with an entry added for a table it does not have, whose
    hash is [EMPTYSHA], gives every table the hash it gave before. *)
Lemma live_of_explicit (db_snap : Snapshot) t info name :
  wf db_snap -> ~ In t (keys db_snap) -> sha info = EMPTYSHA string_sha ->
  live_of string_sha (set db_snap t info) name = live_of string_sha db_snap name.
Proof.
  intros W N S. unfold live_of, get_or.
  rewrite !get_snap_to_shas; [|exact W | now apply wf_set].
  rewrite get_set. destruct (String.eqb_spec t name) as [<-|]; [|reflexivity].
  apply get_None_keys in N. now rewrite N, S.
Qed.

Lemma check_tables_explicit mig (db_snap : Snapshot) t info postrun names bad :
  wf db_snap -> ~ In t (keys db_snap) -> sha info = EMPTYSHA string_sha ->
  fold_left (check_table string_sha mig (snap_to_shas (set db_snap t info)) postrun)
    names bad =
  fold_left (check_table string_sha mig (snap_to_shas db_snap) postrun) names bad.
Proof.
  intros W N S. revert bad. induction names as [|n names IH]; intros bad; simpl.
  - reflexivity.
  - rewrite IH. f_equal. unfold check_table.
    fold (live_of string_sha (set db_snap t info) n) (live_of string_sha db_snap n).
    now rewrite (live_of_explicit db_snap t info n W N S).
Qed.

End Missing.

(** C7 (amended). The per-table lookups read a table that is missing
    from the snapshot as [EMPTYSHA]: adding to a snapshot an entry with
    hash [EMPTYSHA] for a table it does not have changes neither what
    [check_validity] returns nor, on a loaded state, which tables advanced
    resolution groups under which slug.  (The joint hash is taken over the
    entries a snapshot has, and does tell the two snapshots apart.) *)
Theorem missing_table_reads_as_empty
    (string_sha : string -> string) (fs : Files) (st : PugPugState)
    (out0 : list Msg) (db_snap : Snapshot) (t : string) (info : TableSummary) :
  load_all string_sha fs = Ok (st, out0) ->
  wf db_snap ->
  ~ In t (keys db_snap) ->
  sha info = EMPTYSHA string_sha ->
  (forall name,
      live_of string_sha (set db_snap t info) name = live_of string_sha db_snap name) /\
  (forall slug postrun,
      check_validity string_sha st slug (set db_snap t info) postrun
        = check_validity string_sha st slug db_snap postrun) /\
  (forall m x,
      (exists g, get (next_migs (fst (advanced_scan string_sha st (set db_snap t info))))
                   m = Some g /\ In x g) <->
      (exists g, get (next_migs (fst (advanced_scan string_sha st db_snap)))
                   m = Some g /\ In x g)).
Proof.
  intros L W N S.
  destruct (load_all_state string_sha fs st out0 L) as (_ & _ & _ & TK).
  assert (Lv : forall name,
             live_of string_sha (set db_snap t info) name
               = live_of string_sha db_snap name)
    by (intros; now apply live_of_explicit).
  split; [exact Lv|]. split.
  - intros slug postrun. unfold check_validity.
    destruct (getitem (seq st) slug) as [mig|e]; simpl; [|reflexivity].
    now rewrite (check_tables_explicit string_sha mig db_snap t info postrun _ []
                   W N S).
  - intros m x. rewrite !advanced_scan_groups. unfold next_of. rewrite Lv.
    unfold all_tables. rewrite !In_union, !In_set_of, keys_set.
    split; [|tauto]. intros [[[->|I]|I] X]; [|tauto|tauto].
    split; [right|exact X]. apply TK.
    unfold transform, get_or in X.
    destruct (get (table_transforms st) t) eqn:G; [|discriminate].
    destruct (in_dec string_dec t (keys (table_transforms st))) as [I|NI];
      [exact I|].
    apply get_None_keys in NI. congruence.
Qed.

(* ================================================================== *)
(** ** Slugs and creation time *)

(** C5. [mk_slug] hands [slugify] a timestamp written with the minute
    where the month belongs, followed by the first forty characters of the
    comment; and of two creation times, January 15th and February 14th of
    one year at 10:30:00, and again 00:59:00 and 01:00:00 of one day, the
    later has the timestamp that sorts first. *)
Theorem mk_slug_timestamp_order :
  (forall slugify now comment,
      mk_slug slugify now comment
        = slugify (strftime_slug now ++ first_chars 40 comment)%string) /\
  strftime_slug january_15 = "2020-30-15_10-30-00-" /\
  strftime_slug february_14 = "2020-30-14_10-30-00-" /\
  datetime_ltb january_15 february_14 = true /\
  String.ltb (strftime_slug february_14) (strftime_slug january_15) = true /\
  datetime_ltb at_00_59 at_01_00 = true /\
  String.ltb (strftime_slug at_01_00) (strftime_slug at_00_59) = true.
Proof. repeat split. Qed.

(* ================================================================== *)
(** ** Evaluations *)

Example sha1_empty : Sha1.hexdigest "" = "da39a3ee5e6b4b0d3255bfef95601890afd80709".
Proof. vm_compute. reflexivity. Qed.

Example sha1_abc : Sha1.hexdigest "abc" = "a9993e364706816aba3e25717850c26c9cd0d89d".
Proof. vm_compute. reflexivity. Qed.

Example sha1_two_blocks :
  Sha1.hexdigest "abcdbcdecdefdefgefghfghighijhijkijkljklmklmnlmnomnopnopq"
  = "84983e441c3bd26ebaae4aa1f95129e5e54670f1".
Proof. vm_compute. reflexivity. Qed.

Lemma load_init : load_all Sha1.hexdigest files_init = Ok (st_init, []).
Proof. vm_compute. reflexivity. Qed.

Lemma load_branch : load_all Sha1.hexdigest files_branch = Ok (st_branch, out_branch).
Proof. vm_compute. reflexivity. Qed.

(** Against C1 as stated: [s1] is recorded with a start state whose joint
    hash is the snapshot's, and simple resolution does not return it (it
    returns [s2], indexed after it from the same start state). *)
Lemma simple_resolution_not_every_match :
  load_all Sha1.hexdigest files_branch = Ok (st_branch, out_branch) /\
  get (seq st_branch) "s1" = Some mig1 /\
  snap_sha Sha1.hexdigest (start_shas mig1)
    = snap_sha Sha1.hexdigest (snap_to_shas snapA) /\
  find_next_migration_simple Sha1.hexdigest st_branch snapA = Some "s2" /\
  ~ (find_next_migration_simple Sha1.hexdigest st_branch snapA = Some "s1" <->
     snap_sha Sha1.hexdigest (snap_to_shas snapA)
       = snap_sha Sha1.hexdigest (start_shas mig1)).
Proof.
  split; [exact load_branch|].
  assert (F : find_next_migration_simple Sha1.hexdigest st_branch snapA = Some "s2")
    by (vm_compute; reflexivity).
  assert (Q : snap_sha Sha1.hexdigest (start_shas mig1)
              = snap_sha Sha1.hexdigest (snap_to_shas snapA))
    by (vm_compute; reflexivity).
  split; [vm_compute; reflexivity|].
  split; [exact Q|]. split; [exact F|].
  intros [_ H]. rewrite F in H. specialize (H (eq_sym Q)). discriminate.
Qed.

(** Against C3 as stated: on a snapshot whose only table has a hash no
    migration knows, the table is collected in [error] and its message is
    printed, and what is returned is absent: the error is not returned,
    and an absent result does not mean that there is no error.  [check]
    then prints that no migration was found and returns [False]. *)
Lemma advanced_resolution_absent_with_error :
  load_all Sha1.hexdigest files_branch = Ok (st_branch, out_branch) /\
  error (fst (advanced_scan Sha1.hexdigest st_branch snapX)) = ["a"] /\
  find_next_migration_advanced Sha1.hexdigest st_branch snapX
    = ([ErrorUnknownState "a" hX], Ok None) /\
  check Sha1.hexdigest files_branch snapX
    = ([WarnMultipleTransforms "a" hA; ErrorUnknownState "a" hX; ReportNoMatch],
       Ok CheckFalse).
Proof.
  split; [exact load_branch|].
  split; [vm_compute; reflexivity|].
  split; vm_compute; reflexivity.
Qed.

(** Against C4 as stated: the record [init] makes of a database with one
    table (here by the call of [add_migration] that [init] makes) has no
    key in [start_shas] and one in [end_shas]. *)
Lemma init_record_keys_differ :
  exists mig,
    get (seq (fst (add_migration Sha1.hexdigest "s0" "Initial Leap." sqlA
                     [] snapA (mkState [] [] [] [] [])))) "s0" = Some mig /\
    keys (start_shas mig) = [] /\
    keys (end_shas mig) = ["a"] /\
    ~ (forall t, In t (keys (start_shas mig)) <-> In t (keys (end_shas mig))).
Proof.
  exists mig0.
  split; [vm_compute; reflexivity|].
  split; [reflexivity|]. split; [reflexivity|].
  intros H. apply (proj2 (H "a")). now left.
Qed.

(** Against C6 as stated: [s1] and then [s2] are indexed, both changing
    table [a] from the same hash; the warning is printed and the index
    maps the pair to [s2], the second, not to [s1], the first. *)
Lemma conflict_keeps_last :
  load_all Sha1.hexdigest files_branch = Ok (st_branch, out_branch) /\
  In (WarnMultipleTransforms "a" hA) out_branch /\
  transform (table_transforms st_branch) "a" hA = Some "s2" /\
  transform (table_transforms st_branch) "a" hA <> Some "s1".
Proof.
  split; [exact load_branch|].
  split; [now left|].
  split; [vm_compute; reflexivity|].
  vm_compute. discriminate.
Qed.

(** Against C7 as stated: after [init] on a database with table [a],
    simple resolution answers [s0] for the snapshot of an empty database
    and nothing for the same snapshot with [a] mapped to [EMPTYSHA]; the
    joint hashes of the two snapshots differ. *)
Lemma explicit_empty_changes_joint_hash :
  load_all Sha1.hexdigest files_init = Ok (st_init, []) /\
  EMPTYSHA Sha1.hexdigest = hEmpty /\
  find_next_migration_simple Sha1.hexdigest st_init [] = Some "s0" /\
  find_next_migration_simple Sha1.hexdigest st_init
    (set [] "a" (mkSummary "" hEmpty)) = None /\
  snap_sha Sha1.hexdigest (snap_to_shas [])
    <> snap_sha Sha1.hexdigest (snap_to_shas (set [] "a" (mkSummary "" hEmpty))).
Proof.
  split; [exact load_init|].
  split; [vm_compute; reflexivity|].
  split; [vm_compute; reflexivity|].
  split; [vm_compute; reflexivity|].
  vm_compute. discriminate.
Qed.

(** Against C9 as stated: the store holds the first text of table [a]
    under its hash, in the state and in the file of the table; [init] with
    [--force], on the database after the first change, leaves a state
    whose history of [a] has no entry under that hash, and writes a file
    of [a] that holds the new text alone. *)
Lemma forced_init_removes_entries :
  load_all Sha1.hexdigest files_branch = Ok (st_branch, out_branch) /\
  stored (tables st_branch) "a" hA = Some sqlA /\
  table_file files_branch "a" = Some [(hA, sqlA); (hA2, sqlA2); (hA3, sqlA3)] /\
  (exists st out,
      init Sha1.hexdigest keep january_15 dirs_both files_branch true
        (show_full_create db_two) (db_summary Sha1.hexdigest db_two)
        = Ok (st, out) /\
      stored (tables st) "a" hA = None) /\
  (exists fs',
      init_files Sha1.hexdigest keep january_15 dirs_both files_branch true db_two
        = Ok fs' /\
      table_file fs' "a" = Some [(hA2, sqlA2)]).
Proof.
  split; [exact load_branch|].
  split; [vm_compute; reflexivity|].
  split; [vm_compute; reflexivity|].
  split.
  - eexists. eexists. split; vm_compute; reflexivity.
  - eexists. split; vm_compute; reflexivity.
Qed.

(* ================================================================== *)
(** ** The theorems at the database with one table *)

Lemma wf_snapA : wf snapA.
Proof. repeat constructor. simpl. tauto. Defined.

Lemma find_next_migration_simple_last_witness :
  load_all Sha1.hexdigest files_branch = Ok (st_branch, out_branch) /\
  (find_next_migration_simple Sha1.hexdigest st_branch snapA = Some "s2" <->
   exists l1 mig l2,
     seq st_branch = l1 ++ ("s2", mig) :: l2 /\
     snap_sha Sha1.hexdigest (start_shas mig)
       = snap_sha Sha1.hexdigest (snap_to_shas snapA) /\
     forall sm, In sm l2 ->
       snap_sha Sha1.hexdigest (start_shas (snd sm))
         <> snap_sha Sha1.hexdigest (snap_to_shas snapA)).
Proof.
  split; [exact load_branch|].
  exact (proj1 (find_next_migration_simple_last Sha1.hexdigest files_branch
                  st_branch out_branch snapA load_branch) "s2").
Defined.

Lemma check_validity_correct_witness :
  wf snapA2 /\
  get (seq st_branch) "s1" = Some mig1 /\
  check_validity Sha1.hexdigest st_branch "s1" snapA2 false = Ok (Some ["a"]) /\
  snapshot_sha Sha1.hexdigest snapA2 "a" = hA2 /\
  expected_of Sha1.hexdigest mig1 false "a" = hA /\
  exists r,
    check_validity Sha1.hexdigest st_branch "s1" snapA2 false = Ok r /\
    (r = None <->
     forall name,
       start_of Sha1.hexdigest mig1 name <> end_of Sha1.hexdigest mig1 name ->
       snapshot_sha Sha1.hexdigest snapA2 name
         = expected_of Sha1.hexdigest mig1 false name) /\
    (forall bad, r = Some bad ->
       forall name, In name bad <->
         start_of Sha1.hexdigest mig1 name <> end_of Sha1.hexdigest mig1 name /\
         snapshot_sha Sha1.hexdigest snapA2 name
           <> expected_of Sha1.hexdigest mig1 false name).
Proof.
  assert (W : wf snapA2).
  { unfold wf. simpl. constructor; [intros [] | constructor]. }
  assert (H : get (seq st_branch) "s1" = Some mig1) by (vm_compute; reflexivity).
  split; [exact W|]. split; [exact H|].
  split; [vm_compute; reflexivity|].
  split; [vm_compute; reflexivity|].
  split; [vm_compute; reflexivity|].
  exact (check_validity_correct Sha1.hexdigest st_branch "s1" mig1 snapA2 false
           W H).
Defined.

Lemma find_next_migration_advanced_groups_witness :
  load_all Sha1.hexdigest files_branch = Ok (st_branch, out_branch) /\
  exists out r,
    find_next_migration_advanced Sha1.hexdigest st_branch snapA = (out, Ok r) /\
    (r = None <->
     forall t, In t (all_tables st_branch snapA) ->
               next_of Sha1.hexdigest st_branch snapA t = None) /\
    (forall groups, r = Some groups ->
       (forall m g, get groups m = Some g -> g <> []) /\
       (forall m t,
          (exists g, get groups m = Some g /\ In t g) <->
          In t (all_tables st_branch snapA) /\
          next_of Sha1.hexdigest st_branch snapA t = Some m)) /\
    (forall t,
       In t (error (fst (advanced_scan Sha1.hexdigest st_branch snapA))) <->
       In t (all_tables st_branch snapA) /\
       next_of Sha1.hexdigest st_branch snapA t = None /\
       ~ In (live_of Sha1.hexdigest snapA t) (seen st_branch)) /\
    (forall t,
       In t (error (fst (advanced_scan Sha1.hexdigest st_branch snapA))) ->
       error_printed Sha1.hexdigest snapA out t).
Proof.
  split; [exact load_branch|].
  exact (find_next_migration_advanced_groups Sha1.hexdigest files_branch
           st_branch out_branch snapA load_branch).
Defined.

Lemma index_migration_conflict_witness :
  start_of Sha1.hexdigest mig1 "a" <> end_of Sha1.hexdigest mig1 "a" /\
  transform (table_transforms st_branch) "a" (start_of Sha1.hexdigest mig1 "a")
    = Some "s2" /\
  In (WarnMultipleTransforms "a" (start_of Sha1.hexdigest mig1 "a"))
     (snd (index_migration Sha1.hexdigest "s3" mig1 (st_branch, []))) /\
  transform
    (table_transforms (fst (index_migration Sha1.hexdigest "s3" mig1 (st_branch, []))))
    "a" (start_of Sha1.hexdigest mig1 "a") = Some "s3".
Proof.
  assert (C : start_of Sha1.hexdigest mig1 "a" <> end_of Sha1.hexdigest mig1 "a")
    by (vm_compute; discriminate).
  assert (T : transform (table_transforms st_branch) "a"
                (start_of Sha1.hexdigest mig1 "a") = Some "s2")
    by (vm_compute; reflexivity).
  split; [exact C|]. split; [exact T|].
  exact (index_migration_conflict Sha1.hexdigest "s3" mig1 st_branch [] "a" "s2" C T).
Defined.

Lemma missing_table_reads_as_empty_witness :
  load_all Sha1.hexdigest files_init = Ok (st_init, []) /\
  wf ([] : Snapshot) /\
  ~ In "a" (keys ([] : Snapshot)) /\
  sha (mkSummary "" hEmpty) = EMPTYSHA Sha1.hexdigest /\
  ((forall name,
       live_of Sha1.hexdigest (set [] "a" (mkSummary "" hEmpty)) name
         = live_of Sha1.hexdigest [] name) /\
   (forall slug postrun,
       check_validity Sha1.hexdigest st_init slug
         (set [] "a" (mkSummary "" hEmpty)) postrun
         = check_validity Sha1.hexdigest st_init slug [] postrun) /\
   (forall m x,
       (exists g,
           get (next_migs (fst (advanced_scan Sha1.hexdigest st_init
                                  (set [] "a" (mkSummary "" hEmpty)))))
               m = Some g /\ In x g) <->
       (exists g,
           get (next_migs (fst (advanced_scan Sha1.hexdigest st_init [])))
               m = Some g /\ In x g))) /\
  check_validity Sha1.hexdigest st_init "s0" [] false = Ok None /\
  check_validity Sha1.hexdigest st_init "s0"
    (set [] "a" (mkSummary "" hX)) false = Ok (Some ["a"]) /\
  next_migs (fst (advanced_scan Sha1.hexdigest st_init [])) = [("s0", ["a"])] /\
  next_migs (fst (advanced_scan Sha1.hexdigest st_init
                    (set [] "a" (mkSummary "" hX)))) = [].
Proof.
  assert (W : wf ([] : Snapshot)) by constructor.
  assert (N : ~ In "a" (keys ([] : Snapshot))) by (intros []).
  assert (S : sha (mkSummary "" hEmpty) = EMPTYSHA Sha1.hexdigest)
    by (vm_compute; reflexivity).
  split; [exact load_init|]. split; [exact W|].
  split; [exact N|]. split; [exact S|].
  split; [exact (missing_table_reads_as_empty Sha1.hexdigest files_init
                   st_init [] [] "a" (mkSummary "" hEmpty) load_init W N S)|].
  split; [vm_compute; reflexivity|].
  split; [vm_compute; reflexivity|].
  split; vm_compute; reflexivity.
Defined.

Lemma snap_sha_order_independent_witness :
  wf [("a", hA); ("b", hX)] /\
  wf [("b", hX); ("a", hA)] /\
  (forall table h,
      In (table, h) [("a", hA); ("b", hX)] <-> In (table, h) [("b", hX); ("a", hA)]) /\
  snap_sha Sha1.hexdigest [("a", hA); ("b", hX)]
    = snap_sha Sha1.hexdigest [("b", hX); ("a", hA)].
Proof.
  assert (W1 : wf [("a", hA); ("b", hX)]).
  { repeat constructor; simpl; [intros [H|[]]; discriminate | tauto]. }
  assert (W2 : wf [("b", hX); ("a", hA)]).
  { repeat constructor; simpl; [intros [H|[]]; discriminate | tauto]. }
  assert (H : forall table h,
             In (table, h) [("a", hA); ("b", hX)]
             <-> In (table, h) [("b", hX); ("a", hA)])
    by (intros; simpl; tauto).
  split; [exact W1|]. split; [exact W2|]. split; [exact H|].
  exact (snap_sha_order_independent Sha1.hexdigest _ _ W1 W2 H).
Defined.

(* ================================================================== *)
(** * Further properties of the engine *)

(* ================================================================== *)
(** ** Snapshots of the database *)

Lemma wf_of_list {V} (l : list (string * V)) : wf (of_list l).
Proof.
  unfold of_list.
  enough (G : forall acc : dict V,
             wf acc -> wf (fold_left (fun d kv => set d (fst kv) (snd kv)) l acc))
    by (apply G; constructor).
  induction l as [|[k v] l IH]; intros acc W; simpl; [exact W|].
  apply IH, wf_set, W.
Qed.

Lemma get_of_list_In {V} (l : list (string * V)) k v :
  get (of_list l) k = Some v -> In (k, v) l.
Proof.
  unfold of_list.
  enough (G : forall acc : dict V,
             get (fold_left (fun d kv => set d (fst kv) (snd kv)) l acc) k = Some v ->
             In (k, v) l \/ get acc k = Some v)
    by (intros H; destruct (G [] H) as [I|X]; [exact I | discriminate]).
  induction l as [|[k0 v0] l IH]; intros acc H; simpl in *.
  - now right.
  - destruct (IH _ H) as [I|X]; [left; now right|].
    rewrite get_set in X. destruct (String.eqb_spec k0 k) as [->|].
    + left. left. congruence.
    + now right.
Qed.

Lemma db_summary_get string_sha db t info :
  get (db_summary string_sha db) t = Some info ->
  info = table_summary string_sha db t.
Proof.
  intros H. apply get_of_list_In, in_map_iff in H.
  destruct H as (t' & [= <- <-] & _). reflexivity.
Qed.

Lemma db_summary_entries_keys string_sha db t :
  In t (keys (db_summary string_sha db)) <-> In t (list_tables db).
Proof.
  unfold db_summary. rewrite keys_of_list, map_map. simpl. now rewrite map_id.
Qed.

(** X1. The snapshot [db_summary] takes has each table once, has the
    tables [list_tables] finds and no other, and gives each table the text
    [show_create] keeps for it together with the hash of that text. *)
Theorem db_summary_entries (string_sha : string -> string) (db : Database) :
  wf (db_summary string_sha db) /\
  (forall t, In t (keys (db_summary string_sha db)) <-> In t (list_tables db)) /\
  (forall t, In t (list_tables db) ->
     get (db_summary string_sha db) t
       = Some (mkSummary (show_create db t) (string_sha (show_create db t)))).
Proof.
  split; [apply wf_of_list|]. split.
  - intros t. unfold db_summary. rewrite keys_of_list, map_map. simpl.
    now rewrite map_id.
  - intros t I.
    assert (K : In t (keys (db_summary string_sha db))).
    { unfold db_summary. rewrite keys_of_list, map_map. simpl. now rewrite map_id. }
    apply get_None_keys_not in K.
    destruct (get (db_summary string_sha db) t) as [info|] eqn:G; [|contradiction].
    now rewrite (db_summary_get string_sha db t info G).
Qed.

(* ================================================================== *)
(** ** The history store, exactly *)

Lemma update_fold_stored db_snapshot names tbs name h :
  stored (fold_left (update_table_snap db_snapshot) names tbs) name h =
  match stored tbs name h with
  | Some text => Some text
  | None => if mem name names then snapshot_text db_snapshot name h else None
  end.
Proof.
  revert tbs. induction names as [|n names IH]; intros tbs; cbn [fold_left].
  - simpl. destruct (stored tbs name h); reflexivity.
  - rewrite IH, update_table_snap_stored.
    destruct (stored tbs name h) as [text|]; [reflexivity|].
    unfold mem. cbn [existsb]. fold (mem name names). unfold snapshot_text.
    rewrite (String.eqb_sym name n).
    destruct (String.eqb_spec n name) as [->|]; simpl.
    + destruct (get db_snapshot name) as [ts|]; [|now destruct (mem name names)].
      destruct (String.eqb (sha ts) h); [reflexivity|].
      now destruct (mem name names).
    + destruct (get db_snapshot n); reflexivity.
Qed.

Lemma update_table_snaps_stored db_snapshot st name h :
  stored (tables (update_table_snaps db_snapshot st)) name h =
  match stored (tables st) name h with
  | Some text => Some text
  | None => snapshot_text db_snapshot name h
  end.
Proof.
  unfold update_table_snaps. simpl. rewrite update_fold_stored.
  destruct (stored (tables st) name h); [reflexivity|].
  destruct (mem name (keys db_snapshot)) eqn:M; [reflexivity|].
  unfold snapshot_text. destruct (get db_snapshot name) eqn:G; [|reflexivity].
  assert (I : In name (keys db_snapshot)).
  { destruct (in_dec string_dec name (keys db_snapshot)) as [I|N]; [exact I|].
    apply get_None_keys in N. congruence. }
  apply mem_In in I. congruence.
Qed.

(** X2. What [update_table_snaps] leaves under a table and a hash is the
    text that was there; where there was none, it is the snapshot's text
    for the table if that is the snapshot's hash for it, and nothing
    otherwise.  So a text already stored wins over the snapshot's, and
    taking the same snapshot a second time changes no entry. *)
Theorem update_table_snaps_exact
    (db_snapshot : Snapshot) (st : PugPugState) (name h : string) :
  stored (tables (update_table_snaps db_snapshot st)) name h =
    match stored (tables st) name h with
    | Some text => Some text
    | None => snapshot_text db_snapshot name h
    end /\
  stored (tables (update_table_snaps db_snapshot
                    (update_table_snaps db_snapshot st))) name h =
    stored (tables (update_table_snaps db_snapshot st)) name h.
Proof.
  split; [apply update_table_snaps_stored|].
  rewrite !update_table_snaps_stored.
  destruct (stored (tables st) name h); [reflexivity|].
  destruct (snapshot_text db_snapshot name h); reflexivity.
Qed.

(** X3. If every text of the history store is stored under its own hash,
    it is still so after [add_migration] with an end snapshot taken by
    [db_summary]. *)
Theorem add_migration_hashes_consistent
    (string_sha : string -> string) (slug comment script : string)
    (start_snap : Snapshot) (db : Database) (st : PugPugState) :
  hashes_consistent string_sha (tables st) ->
  hashes_consistent string_sha
    (tables (fst (add_migration string_sha slug comment script start_snap
                    (db_summary string_sha db) st))).
Proof.
  intros C name h text. rewrite add_migration_tables, update_table_snaps_stored.
  destruct (stored (tables st) name h) as [t0|] eqn:S.
  - intros [= <-]. apply (C name h t0 S).
  - unfold snapshot_text.
    destruct (get (db_summary string_sha db) name) as [info|] eqn:G; [|discriminate].
    apply db_summary_get in G. subst info. simpl.
    destruct (String.eqb_spec (string_sha (show_create db name)) h);
      [|discriminate].
    intros [= <-]. assumption.
Qed.

(* ================================================================== *)
(** ** A migration just recorded *)

Section Recorded.

Variable string_sha : string -> string.

Lemma add_migration_simple_starts slug comment script start_snap end_snap st :
  simple_starts
    (fst (add_migration string_sha slug comment script start_snap end_snap st)) =
  set (simple_starts st) (snap_sha string_sha (snap_to_shas start_snap)) slug.
Proof.
  unfold add_migration.
  match goal with |- context [index_migration ?h ?s ?m (?st1, ?o)] =>
    pose proof (index_migration_frame h s m st1 o) as F;
    destruct (index_migration h s m (st1, o)) as [st2 out] end.
  simpl in *. destruct F as (_ & F & _). now rewrite F.
Qed.

Lemma no_member_nil {A} (l : list A) : (forall x, ~ In x l) -> l = [].
Proof.
  destruct l as [|a l]; [reflexivity|]. intros H. exfalso. apply (H a). now left.
Qed.

(** A migration finds no bad table in a snapshot whose hash map is its
    own start map (before the run) or its own end map (after it). *)
Lemma bad_tables_of_own (mig : Migration) (db_snap : Snapshot) (postrun : bool) :
  snap_to_shas db_snap = (if postrun then end_shas mig else start_shas mig) ->
  bad_tables_of string_sha mig db_snap postrun = [].
Proof.
  intros H. apply no_member_nil. intros x I.
  apply bad_tables_of_In in I. destruct I as [_ N]. apply N.
  unfold live_of, expected_of, start_of, end_of. rewrite H.
  destruct postrun; reflexivity.
Qed.

End Recorded.

(** X4. Simple resolution proposes a migration just recorded for any
    database in the start state it was recorded from. *)
Theorem recorded_migration_is_next
    (string_sha : string -> string) (slug comment script : string)
    (start_snap end_snap : Snapshot) (st : PugPugState) :
  find_next_migration_simple string_sha
    (fst (add_migration string_sha slug comment script start_snap end_snap st))
    start_snap = Some slug.
Proof.
  unfold find_next_migration_simple.
  rewrite add_migration_simple_starts. apply get_set_eq.
Qed.

(** X5. A migration just recorded passes its own checks: [check_validity]
    finds no bad table in its start snapshot before the run, and none in
    its end snapshot after the run. *)
Theorem recorded_migration_validates
    (string_sha : string -> string) (slug comment script : string)
    (start_snap end_snap : Snapshot) (st : PugPugState) :
  check_validity string_sha
    (fst (add_migration string_sha slug comment script start_snap end_snap st))
    slug start_snap false = Ok None /\
  check_validity string_sha
    (fst (add_migration string_sha slug comment script start_snap end_snap st))
    slug end_snap true = Ok None.
Proof.
  pose proof (add_migration_seq string_sha slug comment script start_snap
                end_snap st) as S.
  assert (G : get (seq (fst (add_migration string_sha slug comment script
                               start_snap end_snap st))) slug
              = Some (mkMigration comment (snap_to_shas start_snap)
                        (snap_to_shas end_snap) (string_sha script)))
    by (rewrite S; apply get_set_eq).
  split; rewrite (check_validity_recorded string_sha _ _ _ _ _ G),
           bad_tables_of_own; reflexivity.
Qed.


(* ================================================================== *)
(** ** The index of a loaded state, exactly *)

Lemma last_where_snoc p sq sm :
  last_where p (sq ++ [sm]) =
  if p (snd sm) then Some (fst sm) else last_where p sq.
Proof. unfold last_where. rewrite fold_left_app. reflexivity. Qed.

Lemma last_where_Some p sq M :
  last_where p sq = Some M <->
  exists l1 mig l2,
    sq = l1 ++ (M, mig) :: l2 /\ p mig = true /\
    forall sm, In sm l2 -> p (snd sm) = false.
Proof.
  induction sq as [|[slug mig] sq IH] using rev_ind.
  - split; [discriminate|]. intros (l1 & m & l2 & H & _).
    destruct l1; discriminate.
  - rewrite last_where_snoc. simpl. destruct (p mig) eqn:P.
    + split.
      * intros [= <-]. exists sq, mig, []. simpl. tauto.
      * intros (l1 & m & l2 & H & Hp & Hl).
        apply app_tail_split in H. destruct H as [(_ & _ & H)|(l2' & -> & _)].
        -- congruence.
        -- assert (X : p (snd (slug, mig)) = false)
             by (apply Hl, in_or_app; right; now left).
           simpl in X. congruence.
    + rewrite IH. split.
      * intros (l1 & m & l2 & -> & Hp & Hl).
        exists l1, m, (l2 ++ [(slug, mig)]). repeat split.
        -- now rewrite <- app_assoc.
        -- exact Hp.
        -- intros sm I. apply in_app_or in I. destruct I as [I|[<-|[]]];
             [now apply Hl | exact P].
      * intros (l1 & m & l2 & H & Hp & Hl).
        apply app_tail_split in H. destruct H as [(_ & _ & H)|(l2' & -> & ->)].
        -- inversion H; subst. congruence.
        -- exists l1, m, l2'. repeat split; [exact Hp|].
           intros sm I. apply Hl. apply in_or_app. now left.
Qed.

Section IndexExact.

Variable string_sha : string -> string.

Lemma index_all_transform sq acc t h :
  transform (table_transforms (fst (index_all string_sha sq acc))) t h =
  fold_left
    (fun r sm => if changes_from string_sha (snd sm) t h then Some (fst sm) else r)
    sq (transform (table_transforms (fst acc)) t h).
Proof.
  unfold index_all. revert acc.
  induction sq as [|[slug mig] sq IH]; intros [st out]; cbn [fold_left fst snd].
  - reflexivity.
  - rewrite IH, index_migration_transform. reflexivity.
Qed.

Lemma index_table_seen slug ss es st out n h :
  In h (seen (fst (index_table string_sha slug ss es (st, out) n))) <->
  In h (seen st) \/ h = get_or ss n (EMPTYSHA string_sha)
  \/ h = get_or es n (EMPTYSHA string_sha).
Proof.
  unfold index_table. destruct (String.eqb _ _); simpl;
    rewrite !In_add; tauto.
Qed.

Lemma index_tables_seen slug ss es names acc h :
  In h (seen (fst (fold_left (index_table string_sha slug ss es) names acc))) <->
  In h (seen (fst acc)) \/
  exists n, In n names /\
    (h = get_or ss n (EMPTYSHA string_sha) \/ h = get_or es n (EMPTYSHA string_sha)).
Proof.
  revert acc. induction names as [|n names IH]; intros [st out]; cbn [fold_left].
  - simpl. split; [tauto | intros [H|(n & [] & _)]; exact H].
  - rewrite IH, index_table_seen. simpl. split.
    + intros [[H|H]|(x & I & H)]; [now left | right; exists n; tauto |
        right; exists x; tauto].
    + intros [H|(x & [<-|I] & H)]; [tauto | tauto | right; exists x; tauto].
Qed.

Lemma index_migration_seen slug mig st out h :
  In h (seen (fst (index_migration string_sha slug mig (st, out)))) <->
  In h (seen st) \/
  exists t, In t (names_of mig) /\
    (h = start_of string_sha mig t \/ h = end_of string_sha mig t).
Proof.
  unfold index_migration. rewrite index_tables_seen. simpl. reflexivity.
Qed.

Lemma index_all_seen sq acc h :
  In h (seen (fst (index_all string_sha sq acc))) <->
  In h (seen (fst acc)) \/
  exists slug mig t, In (slug, mig) sq /\ In t (names_of mig) /\
    (h = start_of string_sha mig t \/ h = end_of string_sha mig t).
Proof.
  unfold index_all. revert acc.
  induction sq as [|[slug mig] sq IH]; intros [st out]; cbn [fold_left fst snd].
  - simpl. split; [tauto | intros [H|(? & ? & ? & [] & _)]; exact H].
  - rewrite IH.
    destruct (index_migration string_sha slug mig (st, out)) as [st1 out1] eqn:X.
    pose proof (index_migration_seen slug mig st out h) as S. rewrite X in S.
    simpl in *. rewrite S. split.
    + intros [[H|(t & I & H)]|(s & m & t & I & J & H)].
      * now left.
      * right. exists slug, mig, t. tauto.
      * right. exists s, m, t. tauto.
    + intros [H|(s & m & t & I & J & K)]; [tauto|].
      destruct I as [I|I].
      * inversion I; subst. left. right. exists t. tauto.
      * right. exists s, m, t. tauto.
Qed.

(** The parts of a loaded state, as [load_all] leaves them. *)
Lemma load_all_parts fs st out :
  load_all string_sha fs = Ok (st, out) ->
  exists tb,
    st = with_tables
           (fst (index_all string_sha (seq st) (mkState [] [] [] [] (seq st), [])))
           tb.
Proof.
  unfold load_all. destruct (sequence_file fs) as [sq|]; [|discriminate].
  pose proof (index_all_frame string_sha sq (mkState [] [] [] [] sq, [])) as F.
  destruct (index_all string_sha sq (mkState [] [] [] [] sq, [])) as [st1 out1] eqn:X.
  simpl in F. destruct F as [_ F].
  destruct (load_tables fs (keys (table_transforms st1)) []) as [tb|];
    [|discriminate].
  simpl. intros [= <- <-]. exists tb. simpl. rewrite F, X. reflexivity.
Qed.

End IndexExact.

(** X7. In a loaded state, the hashes seen are exactly the hashes that
    some recorded migration gives, at its start or at its end, to a table
    it names (a table named on one side only has [EMPTYSHA] on the
    other). *)
Theorem seen_after_load
    (string_sha : string -> string) (fs : Files) (st : PugPugState)
    (out : list Msg) (h : string) :
  load_all string_sha fs = Ok (st, out) ->
  (In h (seen st) <->
   exists slug mig t,
     In (slug, mig) (seq st) /\ In t (names_of mig) /\
     (h = start_of string_sha mig t \/ h = end_of string_sha mig t)).
Proof.
  intros L. destruct (load_all_parts string_sha fs st out L) as [tb E].
  rewrite E at 1. simpl. rewrite index_all_seen. simpl. tauto.
Qed.

(** X8. In a loaded state, the index maps a table and a hash to a slug
    exactly when that slug is the last migration, in the order [load_all]
    enumerates the sequence, that changes the table from that hash. *)
Theorem transform_after_load
    (string_sha : string -> string) (fs : Files) (st : PugPugState)
    (out : list Msg) (t h m : string) :
  load_all string_sha fs = Ok (st, out) ->
  (transform (table_transforms st) t h = Some m <->
   exists l1 mig l2,
     seq st = l1 ++ (m, mig) :: l2 /\
     changes_from string_sha mig t h = true /\
     forall sm, In sm l2 -> changes_from string_sha (snd sm) t h = false).
Proof.
  intros L. destruct (load_all_parts string_sha fs st out L) as [tb E].
  rewrite E at 1. simpl. rewrite index_all_transform. simpl.
  apply (last_where_Some (fun mig => changes_from string_sha mig t h)).
Qed.

(* ================================================================== *)
(** ** Slugs in order *)

Lemma insert_Permutation x l : Permutation (insert x l) (x :: l).
Proof.
  induction l as [|y l IH]; simpl; [reflexivity|].
  destruct (String.leb x y); [reflexivity|].
  rewrite IH. apply perm_swap.
Qed.

Lemma sorted_perm l : Permutation (sorted l) l.
Proof.
  induction l as [|x l IH]; simpl; [reflexivity|].
  rewrite insert_Permutation. now constructor.
Qed.

Lemma In_sorted l x : In x (sorted l) <-> In x l.
Proof.
  split; apply Permutation_in; [apply sorted_perm | symmetry; apply sorted_perm].
Qed.

Lemma insert_ascending x l : ascending l -> ascending (insert x l).
Proof.
  unfold ascending. induction 1 as [|y l S IH F]; simpl.
  - repeat constructor.
  - destruct (String.leb x y) eqn:XY.
    + constructor; [now constructor|]. constructor; [exact XY|].
      rewrite Forall_forall in *. intros z I.
      eapply string_leb_trans; [exact XY | now apply F].
    + constructor; [exact IH|].
      rewrite Forall_forall in *. intros z I.
      apply (Permutation_in _ (insert_Permutation x l)) in I.
      destruct I as [<-|I]; [now apply string_leb_false | now apply F].
Qed.

Lemma sorted_ascending l : ascending (sorted l).
Proof.
  induction l as [|x l IH]; simpl; [constructor | now apply insert_ascending].
Qed.

Lemma string_leb_refl a : String.leb a a = true.
Proof. destruct (String.leb_total a a); assumption. Qed.

Lemma ltb_leb a b : String.ltb a b = true -> String.leb a b = true.
Proof.
  unfold String.ltb, String.leb. destruct (String.compare a b); congruence.
Qed.

Lemma ltb_false_leb a b : String.ltb a b = false -> String.leb b a = true.
Proof.
  unfold String.ltb, String.leb. rewrite (String.compare_antisym a b).
  destruct (String.compare b a); simpl; congruence.
Qed.

(** [max] answers with a member that no member exceeds. *)
Lemma max_spec l m :
  max l = Ok m -> In m l /\ forall x, In x l -> String.leb x m = true.
Proof.
  intros H. split; [now apply max_In|].
  destruct l as [|a l]; [discriminate|]. simpl in H. inversion H as [E]. clear H E.
  enough (G : forall l a x,
             String.leb x a = true \/ In x l ->
             String.leb x
               (fold_left (fun m y => if String.ltb m y then y else m) l a) = true).
  { intros x [<-|I]; apply G; [left; apply string_leb_refl | now right]. }
  clear. induction l as [|y l IH]; intros a x H; simpl.
  - destruct H as [H|[]]. exact H.
  - apply IH. destruct H as [H|[<-|I]].
    + left. destruct (String.ltb a y) eqn:L; [|exact H].
      eapply string_leb_trans; [exact H | now apply ltb_leb].
    + left. destruct (String.ltb a y) eqn:L;
        [apply string_leb_refl | now apply ltb_false_leb].
    + now right.
Qed.

Lemma max_nonempty l : l <> [] -> exists m, max l = Ok m.
Proof. destruct l; [congruence | simpl; eauto]. Qed.

(** A member that no member exceeds is the one [max] answers with. *)
Lemma max_unique l m :
  In m l -> (forall x, In x l -> String.leb x m = true) -> max l = Ok m.
Proof.
  intros I G. destruct (max_nonempty l) as [m' M].
  { intros ->. destruct I. }
  rewrite M. f_equal. destruct (max_spec l m' M) as [I' G'].
  apply String.leb_antisym; [now apply G | now apply G'].
Qed.

Lemma last_cons {A} (l : list A) a b : last (b :: l) a = last l b.
Proof.
  revert a b. induction l as [|c l IH]; intros a b; [reflexivity|].
  change (last (b :: c :: l) a) with (last (c :: l) a).
  now rewrite !IH.
Qed.

Lemma last_ascending l a :
  ascending (a :: l) -> forall x, In x (a :: l) -> String.leb x (last l a) = true.
Proof.
  unfold ascending. revert a. induction l as [|b l IH]; intros a S x I.
  - destruct I as [<-|[]]. apply string_leb_refl.
  - rewrite last_cons.
    inversion S as [|? ? S' F]; subst.
    destruct I as [<-|I]; [|now apply IH].
    eapply string_leb_trans; [|apply (IH b S' b); now left].
    rewrite Forall_forall in F. apply F. now left.
Qed.

Lemma last_In {A} (l : list A) a : In (last l a) (a :: l).
Proof.
  revert a. induction l as [|b l IH]; intros a; [now left|].
  right. rewrite last_cons. apply IH.
Qed.

(** X9. [get_slugs] lists the slugs of the sequence, the same ones and as
    many, in ascending order; and the slug [show] displays when it is
    given none, the last of that list, is the one [max] picks for
    [is_up_to_date], as soon as a migration is recorded. *)
Theorem get_slugs_ascending (st : PugPugState) :
  Permutation (get_slugs st) (keys (seq st)) /\
  ascending (get_slugs st) /\
  (seq st <> [] -> latest_slug st = max (keys (seq st))).
Proof.
  unfold latest_slug, get_slugs. split; [apply sorted_perm|].
  split; [apply sorted_ascending|]. intros N.
  pose proof (sorted_ascending (keys (seq st))) as A.
  pose proof (In_sorted (keys (seq st))) as P.
  destruct (sorted (keys (seq st))) as [|a l] eqn:S.
  - exfalso. destruct (seq st) as [|[k v] sq]; [congruence|].
    apply (proj2 (P k)). now left.
  - simpl. symmetry. apply max_unique.
    + apply P, last_In.
    + intros x I. apply last_ascending; [exact A | now apply P].
Qed.

(** X10. After [add_migration] under a slug that no recorded slug
    exceeds, the end snapshot of the migration is up to date. *)
Theorem add_migration_up_to_date
    (string_sha : string -> string) (slug comment script : string)
    (start_snap end_snap : Snapshot) (st : PugPugState) :
  (forall k, In k (keys (seq st)) -> String.leb k slug = true) ->
  is_up_to_date string_sha
    (fst (add_migration string_sha slug comment script start_snap end_snap st))
    end_snap = Ok true.
Proof.
  intros G. unfold is_up_to_date. rewrite add_migration_seq.
  rewrite (max_unique _ slug).
  - simpl. unfold getitem. rewrite get_set_eq. simpl.
    now rewrite String.eqb_refl.
  - apply keys_set. now left.
  - intros x I. apply keys_set in I. destruct I as [->|I];
      [apply string_leb_refl | now apply G].
Qed.

(* ================================================================== *)
(** ** The files written *)

Section Dump.

Context {V : Type}.
Implicit Types (d : dict V) (k : string).

Lemma get_flat_map_keys d ks k :
  get (flat_map
         (fun x => match get d x with Some v => [(x, v)] | None => [] end) ks) k =
  if mem k ks then get d k else None.
Proof.
  induction ks as [|x ks IH]; simpl; [reflexivity|].
  unfold mem in *. cbn [existsb]. rewrite (String.eqb_sym k x).
  destruct (get d x) as [v|] eqn:G; simpl.
  - destruct (String.eqb_spec x k) as [->|]; simpl; [now rewrite G | exact IH].
  - destruct (String.eqb_spec x k) as [->|]; simpl; [|exact IH].
    rewrite IH, G. now destruct (existsb _ ks).
Qed.

Lemma keys_flat_map_keys d ks :
  (forall x, In x ks -> In x (keys d)) ->
  keys (flat_map
          (fun x => match get d x with Some v => [(x, v)] | None => [] end) ks) = ks.
Proof.
  induction ks as [|x ks IH]; intros H; simpl; [reflexivity|].
  assert (I : In x (keys d)) by (apply H; now left).
  apply get_None_keys_not in I.
  destruct (get d x) as [v|]; [|contradiction]. simpl. f_equal.
  apply IH. intros y J. apply H. now right.
Qed.

Lemma dump_sorted_yaml_get d k : get (dump_sorted_yaml d) k = get d k.
Proof.
  unfold dump_sorted_yaml. rewrite get_flat_map_keys.
  destruct (mem k (sorted (keys d))) eqn:M; [reflexivity|].
  destruct (get d k) eqn:G; [|reflexivity].
  assert (I : In k (keys d)).
  { destruct (in_dec string_dec k (keys d)) as [I|N]; [exact I|].
    apply get_None_keys in N. congruence. }
  apply In_sorted, mem_In in I. congruence.
Qed.

Lemma dump_sorted_yaml_keys d : keys (dump_sorted_yaml d) = sorted (keys d).
Proof.
  unfold dump_sorted_yaml. apply keys_flat_map_keys.
  intros x. apply In_sorted.
Qed.

Lemma dump_sorted_yaml_In d k v :
  In (k, v) (dump_sorted_yaml d) -> In (k, v) d.
Proof.
  intros I. apply get_In. rewrite <- dump_sorted_yaml_get.
  unfold dump_sorted_yaml in *. apply in_flat_map in I.
  destruct I as (x & _ & I). destruct (get d x) as [v0|] eqn:G; [|destruct I].
  destruct I as [[= <- <-]|[]]. rewrite get_flat_map_keys.
  assert (J : In x (keys d)).
  { destruct (in_dec string_dec x (keys d)) as [J|N]; [exact J|].
    apply get_None_keys in N. congruence. }
  apply In_sorted, mem_In in J. now rewrite J.
Qed.

End Dump.

(** X11. What [dump_sorted_yaml] writes has every key of the dictionary
    with its value and no other, the keys in ascending order; and two
    dictionaries with the same entries, in whatever order, are written
    the same. *)
Theorem dump_sorted_yaml_canonical {V : Type} (d : dict V) :
  (forall k, get (dump_sorted_yaml d) k = get d k) /\
  keys (dump_sorted_yaml d) = sorted (keys d) /\
  ascending (keys (dump_sorted_yaml d)) /\
  (forall d' : dict V,
      wf d -> wf d' ->
      (forall k v, In (k, v) d <-> In (k, v) d') ->
      dump_sorted_yaml d = dump_sorted_yaml d').
Proof.
  split; [apply dump_sorted_yaml_get|].
  split; [apply dump_sorted_yaml_keys|].
  split; [rewrite dump_sorted_yaml_keys; apply sorted_ascending|].
  intros d' W W' H. unfold dump_sorted_yaml.
  rewrite (sorted_Permutation _ _ (same_entries_keys d d' W W' H)).
  apply flat_map_ext. intros x.
  now rewrite (same_entries_get d d' W W' H x).
Qed.

(* ================================================================== *)
(** ** Saving and loading again *)

Section RoundTrip.

Variable string_sha : string -> string.

Lemma keys_touch (tt : dict (dict string)) n t :
  In t (keys (if contains tt n then tt else set tt n [])) <->
  t = n \/ In t (keys tt).
Proof.
  destruct (contains tt n) eqn:C.
  - apply contains_keys in C. split; [tauto | intros [->|]; assumption].
  - apply keys_set.
Qed.

Lemma index_table_keys slug ss es st out n t :
  In t (keys (table_transforms (fst (index_table string_sha slug ss es (st, out) n))))
  <-> t = n \/ In t (keys (table_transforms st)).
Proof.
  unfold index_table. destruct (String.eqb _ _); simpl.
  - apply keys_touch.
  - rewrite keys_set, keys_touch. tauto.
Qed.

Lemma index_tables_keys slug ss es names acc t :
  In t (keys (table_transforms
                (fst (fold_left (index_table string_sha slug ss es) names acc))))
  <-> In t names \/ In t (keys (table_transforms (fst acc))).
Proof.
  revert acc. induction names as [|n names IH]; intros [st out]; cbn [fold_left].
  - simpl. tauto.
  - rewrite IH, index_table_keys. simpl. intuition.
Qed.

Lemma index_all_keys sq acc t :
  In t (keys (table_transforms (fst (index_all string_sha sq acc)))) <->
  (exists slug mig, In (slug, mig) sq /\ In t (names_of mig)) \/
  In t (keys (table_transforms (fst acc))).
Proof.
  unfold index_all. revert acc.
  induction sq as [|[slug mig] sq IH]; intros [st out]; cbn [fold_left fst snd].
  - simpl. split; [tauto | intros [(? & ? & [] & _)|H]; exact H].
  - rewrite IH. unfold index_migration. rewrite index_tables_keys. simpl.
    fold (names_of mig). split.
    + intros [(s & m & I & J)|[J|J]].
      * left. exists s, m. tauto.
      * left. exists slug, mig. tauto.
      * now right.
    + intros [(s & m & I & J)|J]; [|tauto].
      destruct I as [I|I].
      * inversion I; subst. tauto.
      * left. exists s, m. tauto.
Qed.

Lemma load_tables_ok fs names acc :
  (forall t, In t names -> table_file fs t <> None) ->
  exists tb,
    load_tables fs names acc = Ok tb /\
    forall t, get tb t = if mem t names then table_file fs t else get acc t.
Proof.
  revert acc. induction names as [|n names IH]; intros acc H; simpl.
  - exists acc. split; reflexivity.
  - assert (F : table_file fs n <> None) by (apply H; now left).
    destruct (table_file fs n) as [hist|] eqn:T; [|contradiction].
    destruct (IH (set acc n hist)) as (tb & L & G).
    { intros t I. apply H. now right. }
    exists tb. split; [exact L|]. intros t. rewrite G.
    unfold mem. cbn [existsb]. fold (mem t names).
    destruct (mem t names); [now rewrite orb_true_r|]. rewrite orb_false_r.
    rewrite get_set, (String.eqb_sym t n).
    destruct (String.eqb_spec n t) as [->|]; [now rewrite T | reflexivity].
Qed.

Lemma dump_sorted_yaml_In_get {V} (d : dict V) k v :
  In (k, v) (dump_sorted_yaml d) -> get d k = Some v.
Proof.
  intros I. unfold dump_sorted_yaml in I. apply in_flat_map in I.
  destruct I as (x & _ & I). destruct (get d x) as [v0|] eqn:G; [|destruct I].
  destruct I as [I|[]]. inversion I; subst. exact G.
Qed.

(** The files [save_all] writes load, when the file of every table that a
    migration of the sequence names is written or was there. *)
Lemma load_saved st fs :
  (forall slug mig t,
      get (seq st) slug = Some mig -> In t (names_of mig) ->
      In t (keys (tables st)) \/ table_file fs t <> None) ->
  exists st' out,
    load_all string_sha (save_all st fs) = Ok (st', out) /\
    seq st' = dump_sorted_yaml (seq st) /\
    (forall t, In t (keys (tables st')) <->
       exists slug mig, get (seq st) slug = Some mig /\ In t (names_of mig)) /\
    (forall t, In t (keys (tables st')) ->
       get (tables st') t = table_file (save_all st fs) t).
Proof.
  intros H. unfold load_all. cbn [save_all sequence_file].
  pose proof (index_all_frame string_sha (dump_sorted_yaml (seq st))
                (mkState [] [] [] [] (dump_sorted_yaml (seq st)), [])) as F.
  pose proof (index_all_keys (dump_sorted_yaml (seq st))
                (mkState [] [] [] [] (dump_sorted_yaml (seq st)), [])) as K.
  destruct (index_all string_sha (dump_sorted_yaml (seq st))
              (mkState [] [] [] [] (dump_sorted_yaml (seq st)), [])) as [st1 out1].
  simpl in F, K. destruct F as [_ F].
  assert (K' : forall t, In t (keys (table_transforms st1)) <->
             exists slug mig, get (seq st) slug = Some mig /\ In t (names_of mig)).
  { intros t. rewrite K. split.
    - intros [(s & m & I & J)|[]]. exists s, m. split; [|exact J].
      now apply dump_sorted_yaml_In_get.
    - intros (s & m & G & J). left. exists s, m. split; [|exact J].
      apply get_In. now rewrite dump_sorted_yaml_get. }
  destruct (load_tables_ok (save_all st fs) (keys (table_transforms st1)) [])
    as (tb & L & G).
  { intros t I. apply K' in I. destruct I as (s & m & Gs & J).
    simpl. destruct (H s m t Gs J) as [I|N].
    - apply get_None_keys_not in I. destruct (get (tables st) t); congruence.
    - destruct (get (tables st) t); [discriminate | exact N]. }
  rewrite L. simpl. exists (with_tables st1 tb), out1. split; [reflexivity|].
  simpl. split; [exact F|].
  assert (KT : forall t, In t (keys tb) <-> In t (keys (table_transforms st1))).
  { intros t. rewrite (load_tables_keys string_sha (save_all st fs) _ _ tb t L).
    simpl. tauto. }
  split.
  - intros t. rewrite KT. apply K'.
  - intros t I. rewrite G. apply KT, mem_In in I. now rewrite I.
Qed.

Lemma update_table_snap_keys db_snapshot tbs n t :
  In t (keys (update_table_snap db_snapshot tbs n)) <-> t = n \/ In t (keys tbs).
Proof.
  unfold update_table_snap. destruct (get db_snapshot n) as [ts|].
  - destruct (contains _ (sha ts)).
    + apply keys_touch.
    + rewrite keys_set, keys_touch. tauto.
  - apply keys_touch.
Qed.

Lemma update_table_snaps_keys db_snapshot st t :
  In t (keys (tables (update_table_snaps db_snapshot st))) <->
  In t (keys db_snapshot) \/ In t (keys (tables st)).
Proof.
  unfold update_table_snaps. simpl. generalize (tables st) as tbs.
  induction (keys db_snapshot) as [|n names IH]; intros tbs; simpl.
  - tauto.
  - rewrite IH, update_table_snap_keys. intuition.
Qed.

End RoundTrip.

(** X12. On a state that has a migration and no table with an empty
    history (a dictionary with no key is written as a file that holds no
    mapping, and loading that fails), when every table that a migration of
    the sequence names has a history in the state or a file already, the
    files [save_all] writes
    load again: into a state with the same records under the same slugs,
    the slugs in ascending order, with a history for exactly the tables
    the migrations name, and with the texts of the state under the same
    hashes for each of these tables the state has a history of. *)
Theorem save_all_load_all
    (string_sha : string -> string) (st : PugPugState) (fs : Files) :
  saveable st = true ->
  (forall slug mig t,
      get (seq st) slug = Some mig -> In t (names_of mig) ->
      In t (keys (tables st)) \/ table_file fs t <> None) ->
  exists st' out,
    load_all string_sha (save_all st fs) = Ok (st', out) /\
    (forall slug, get (seq st') slug = get (seq st) slug) /\
    ascending (keys (seq st')) /\
    (forall t, In t (keys (tables st')) <->
       exists slug mig, get (seq st) slug = Some mig /\ In t (names_of mig)) /\
    (forall t h, In t (keys (tables st')) -> In t (keys (tables st)) ->
       stored (tables st') t h = stored (tables st) t h).
Proof.
  intros _ H.
  destruct (load_saved string_sha st fs H) as (st' & out & L & S & K & G).
  exists st', out. split; [exact L|]. split; [|split; [|split]].
  - intros slug. rewrite S. apply dump_sorted_yaml_get.
  - rewrite S, dump_sorted_yaml_keys. apply sorted_ascending.
  - exact K.
  - intros t h I J. unfold stored, get_or. rewrite (G t I). simpl.
    apply get_None_keys_not in J.
    destruct (get (tables st) t) as [hist|]; [|contradiction].
    apply dump_sorted_yaml_get.
Qed.

(* ================================================================== *)
(** ** From one command to the next *)

Section Commands2.

Variable string_sha : string -> string.
Variable slugify : string -> string.

Lemma init_Ok now dirs fs force full_create db_snap st out :
  init string_sha slugify now dirs fs force full_create db_snap = Ok (st, out) ->
  st = fst (add_migration string_sha (mk_slug slugify now "Initial Leap.")
              "Initial Leap." full_create [] db_snap (mkState [] [] [] [] [])).
Proof.
  unfold init, init_from_zero, makedirs.
  destruct (sql_dir dirs), (table_data_dir dirs), (sequence_file fs), force;
    simpl; try discriminate; intros H; inversion H as [H']; now rewrite H'.
Qed.

Lemma init_files_Ok now dirs fs force db fs' :
  init_files string_sha slugify now dirs fs force db = Ok fs' ->
  fs' = save_all
          (fst (add_migration string_sha (mk_slug slugify now "Initial Leap.")
                  "Initial Leap." (show_full_create db) []
                  (db_summary string_sha db) (mkState [] [] [] [] []))) fs.
Proof.
  unfold init_files.
  destruct (init string_sha slugify now dirs fs force (show_full_create db)
              (db_summary string_sha db)) as [[st o]|e] eqn:I;
    cbn [bind fst]; [|discriminate].
  apply init_Ok in I. rewrite <- I.
  destruct (tables st) as [|[table history] tb];
    [|destruct (negb (sql_dir dirs) || table_data_dir dirs)];
    intros H; now inversion H.
Qed.

Lemma check_up_to_date fs db_snap st out :
  load_all string_sha fs = Ok (st, out) ->
  is_up_to_date string_sha st db_snap = Ok true ->
  check string_sha fs db_snap = (out ++ [ReportUpToDate], Ok CheckNone).
Proof. intros L U. unfold check. now rewrite L, U. Qed.

(** [is_up_to_date] compares with the end state of the record whose slug
    no slug exceeds. *)
Lemma is_up_to_date_latest st db_snap slug mig :
  get (seq st) slug = Some mig ->
  (forall k, In k (keys (seq st)) -> String.leb k slug = true) ->
  is_up_to_date string_sha st db_snap =
  Ok (String.eqb (snap_sha string_sha (snap_to_shas db_snap))
                 (snap_sha string_sha (end_shas mig))).
Proof.
  intros G H. unfold is_up_to_date. rewrite (max_unique _ slug).
  - simpl. unfold getitem. now rewrite G.
  - destruct (in_dec string_dec slug (keys (seq st))) as [I|N]; [exact I|].
    apply get_None_keys in N. congruence.
  - exact H.
Qed.


End Commands2.

(** X13. After [init] has written its files, [check] on the database as
    [init] saw it reports that it is up to date. *)
Theorem init_then_check
    (string_sha slugify : string -> string) (now : datetime) (dirs : Dirs)
    (fs fs' : Files) (force : bool) (db : Database) :
  init_files string_sha slugify now dirs fs force db = Ok fs' ->
  exists out,
    check string_sha fs' (db_summary string_sha db)
      = (out ++ [ReportUpToDate], Ok CheckNone).
Proof.
  intros F. apply init_files_Ok in F. subst fs'.
  remember (fst (add_migration string_sha (mk_slug slugify now "Initial Leap.")
                   "Initial Leap." (show_full_create db) []
                   (db_summary string_sha db) (mkState [] [] [] [] [])))
    as st eqn:I.
  pose proof (add_migration_seq string_sha (mk_slug slugify now "Initial Leap.")
                "Initial Leap." (show_full_create db) []
                (db_summary string_sha db) (mkState [] [] [] [] [])) as S.
  pose proof (add_migration_tables string_sha (mk_slug slugify now "Initial Leap.")
                "Initial Leap." (show_full_create db) []
                (db_summary string_sha db) (mkState [] [] [] [] [])) as T.
  rewrite <- I in S, T. simpl in S.
  destruct (load_saved string_sha st fs) as (st' & out & L & S' & _).
  { intros slug mig t G N. left.
    rewrite T, (update_table_snaps_keys string_sha). left.
    rewrite S in G. simpl in G.
    destruct (String.eqb _ slug); [|discriminate]. inversion G; subst mig.
    unfold names_of in N. simpl in N.
    rewrite In_union, !In_set_of in N. destruct N as [[]|N].
    now apply keys_snap_to_shas in N. }
  exists out. apply (check_up_to_date string_sha _ _ st' out L).
  rewrite (is_up_to_date_latest string_sha st' _
             (mk_slug slugify now "Initial Leap.")
             (mkMigration "Initial Leap." (snap_to_shas [])
                (snap_to_shas (db_summary string_sha db))
                (string_sha (show_full_create db)))).
  - simpl. now rewrite String.eqb_refl.
  - rewrite S', dump_sorted_yaml_get, S. simpl. now rewrite String.eqb_refl.
  - intros k K. rewrite S', dump_sorted_yaml_keys, In_sorted, S in K.
    destruct K as [<-|[]]. apply string_leb_refl.
Qed.


(* ================================================================== *)
(** ** Running a migration *)

Section Migrate.

Variable string_sha : string -> string.
Variable run_sql : Database -> string -> result Database.

Lemma no_bad_tables mig db_snap postrun :
  bad_tables_of string_sha mig db_snap postrun = [] <->
  forall name,
    start_of string_sha mig name <> end_of string_sha mig name ->
    live_of string_sha db_snap name = expected_of string_sha mig postrun name.
Proof.
  pose proof (bad_tables_of_In string_sha mig db_snap postrun) as B. split.
  - intros E name C.
    destruct (string_dec (live_of string_sha db_snap name)
                (expected_of string_sha mig postrun name)) as [|N]; [assumption|].
    exfalso. rewrite E in B. apply (proj2 (B name)). tauto.
  - intros A. apply no_member_nil. intros x I. apply B in I.
    destruct I as [C N]. apply N, A, C.
Qed.

End Migrate.

(** X15. When [migrate] runs a file, the state had loaded, the file is the
    one of the slug it went on with, that slug is not empty and is
    recorded, and every table its migration changes had, in the database
    before the run, the start hash the migration records.  The check after
    the run names nothing exactly when every such table has the recorded
    end hash in the database the run left, and otherwise names exactly the
    tables that do not. *)
Theorem migrate_runs_only_valid
    (string_sha : string -> string)
    (run_sql : Database -> string -> result Database)
    (fs : Files) (db db' : Database) (slug : option string)
    (filename : string) (run_failed : option (list string)) :
  migrate string_sha run_sql fs db slug = Ok (Ran filename db' run_failed) ->
  exists st out s mig,
    load_all string_sha fs = Ok (st, out) /\
    chosen_slug string_sha st (db_summary string_sha db) slug = Some s /\
    s <> "" /\
    filename = get_file s /\
    get (seq st) s = Some mig /\
    run_sql db filename = Ok db' /\
    (forall name,
        start_of string_sha mig name <> end_of string_sha mig name ->
        live_of string_sha (db_summary string_sha db) name
          = start_of string_sha mig name) /\
    (run_failed = None <->
     forall name,
       start_of string_sha mig name <> end_of string_sha mig name ->
       live_of string_sha (db_summary string_sha db') name
         = end_of string_sha mig name) /\
    (forall bad, run_failed = Some bad ->
       forall name, In name bad <->
         start_of string_sha mig name <> end_of string_sha mig name /\
         live_of string_sha (db_summary string_sha db') name
           <> end_of string_sha mig name).
Proof.
  unfold migrate.
  destruct (load_all string_sha fs) as [[st out]|e] eqn:L; simpl; [|discriminate].
  destruct (chosen_slug string_sha st (db_summary string_sha db) slug)
    as [s|] eqn:Ch; [|discriminate].
  unfold truthy. destruct (String.eqb_spec s "") as [|Ne]; simpl; [discriminate|].
  destruct (get (seq st) s) as [mig|] eqn:G.
  2:{ unfold check_validity, getitem. rewrite G. discriminate. }
  rewrite (check_validity_recorded string_sha st s mig _ false G). simpl.
  destruct (bad_tables_of string_sha mig (db_summary string_sha db) false)
    as [|b bad] eqn:B; [|discriminate].
  destruct (run_sql db (get_file s)) as [db1|e] eqn:R; simpl; [|discriminate].
  rewrite (check_validity_recorded string_sha st s mig _ true G). simpl.
  intros [= <- <- <-].
  exists st, out, s, mig. repeat (split; [first [reflexivity | assumption]|]).
  split; [apply (no_bad_tables string_sha mig _ false), B|].
  pose proof (no_bad_tables string_sha mig (db_summary string_sha db1) true) as Nb.
  pose proof (bad_tables_of_In string_sha mig (db_summary string_sha db1) true) as Bi.
  simpl in Nb, Bi.
  destruct (bad_tables_of string_sha mig (db_summary string_sha db1) true)
    as [|b' bad'].
  - split; [split; [intros _; now apply Nb | reflexivity] | discriminate].
  - split.
    + split; [discriminate|]. intros A. apply Nb in A. discriminate.
    + intros bad [= <-]. exact Bi.
Qed.

(** X16. When the state has loaded, [migrate] runs nothing in these three
    cases, whatever running would do: it raises [KeyError] for a slug it
    goes on with that is not recorded; it reports the tables that forbid
    the run, among them every table that the migration changes and that
    has not the recorded start hash in the database; and it reports that
    the next migration is not obvious when it is given no slug and simple
    resolution finds none. *)
Theorem migrate_stops
    (string_sha : string -> string)
    (run_sql : Database -> string -> result Database)
    (fs : Files) (db : Database) (slug : option string)
    (st : PugPugState) (out : list Msg) :
  load_all string_sha fs = Ok (st, out) ->
  (forall s,
      chosen_slug string_sha st (db_summary string_sha db) slug = Some s ->
      s <> "" -> get (seq st) s = None ->
      migrate string_sha run_sql fs db slug = Raise (KeyError s)) /\
  (forall s mig name,
      chosen_slug string_sha st (db_summary string_sha db) slug = Some s ->
      s <> "" -> get (seq st) s = Some mig ->
      start_of string_sha mig name <> end_of string_sha mig name ->
      live_of string_sha (db_summary string_sha db) name
        <> start_of string_sha mig name ->
      exists bad,
        migrate string_sha run_sql fs db slug = Ok (CantRun bad) /\ In name bad) /\
  (chosen_slug string_sha st (db_summary string_sha db) slug = None ->
   migrate string_sha run_sql fs db slug = Ok NotObvious).
Proof.
  intros L. unfold migrate. rewrite L. simpl. split; [|split].
  - intros s Ch Ne G. rewrite Ch. unfold truthy.
    destruct (String.eqb_spec s ""); [contradiction|]. simpl.
    unfold check_validity, getitem. now rewrite G.
  - intros s mig name Ch Ne G C N. rewrite Ch. unfold truthy.
    destruct (String.eqb_spec s ""); [contradiction|]. simpl.
    rewrite (check_validity_recorded string_sha st s mig _ false G). simpl.
    assert (I : In name (bad_tables_of string_sha mig (db_summary string_sha db) false))
      by (apply bad_tables_of_In; split; assumption).
    destruct (bad_tables_of string_sha mig (db_summary string_sha db) false)
      as [|b bad]; [destruct I|].
    eexists. split; [reflexivity | exact I].
  - intros Ch. now rewrite Ch.
Qed.

(* ================================================================== *)
(** ** Where the scan puts a table *)

Section Partition.

Variable string_sha : string -> string.

Lemma scan_table_up_to_date st db_snap sc out n t :
  In t (up_to_date
          (fst (scan_table string_sha st (snap_to_shas db_snap) (sc, out) n))) <->
  In t (up_to_date sc) \/
  (t = n /\ next_of string_sha st db_snap n = None /\
   In (live_of string_sha db_snap n) (seen st)).
Proof.
  unfold scan_table, next_of, live_of.
  fold (transform (table_transforms st) n
          (get_or (snap_to_shas db_snap) n (EMPTYSHA string_sha))).
  destruct (transform (table_transforms st) n _) as [m0|].
  - simpl. intuition congruence.
  - destruct (mem _ (seen st)) eqn:M; simpl.
    + apply mem_In in M. rewrite in_app_iff. simpl. intuition congruence.
    + assert (~ In (get_or (snap_to_shas db_snap) n (EMPTYSHA string_sha)) (seen st)).
      { intros I. apply mem_In in I. congruence. }
      intuition congruence.
Qed.

Lemma scan_up_to_date st db_snap names acc t :
  In t (up_to_date (fst (fold_left (scan_table string_sha st (snap_to_shas db_snap))
                           names acc))) <->
  In t (up_to_date (fst acc)) \/
  (In t names /\ next_of string_sha st db_snap t = None /\
   In (live_of string_sha db_snap t) (seen st)).
Proof.
  revert acc. induction names as [|n names IH]; intros [sc out]; cbn [fold_left].
  - simpl. tauto.
  - rewrite IH, scan_table_up_to_date. simpl. intuition (subst; auto).
Qed.

Lemma scan_untracked st db_shas names acc :
  untracked (fst (fold_left (scan_table string_sha st db_shas) names acc)) =
  untracked (fst acc).
Proof.
  revert acc. induction names as [|n names IH]; intros [sc out]; cbn [fold_left].
  - reflexivity.
  - rewrite IH. unfold scan_table.
    destruct (get _ _); [reflexivity|]. destruct (mem _ _); reflexivity.
Qed.

Lemma advanced_scan_error st db_snap t :
  In t (error (fst (advanced_scan string_sha st db_snap))) <->
  In t (all_tables st db_snap) /\ next_of string_sha st db_snap t = None /\
  ~ In (live_of string_sha db_snap t) (seen st).
Proof. unfold advanced_scan. rewrite scan_error. simpl. tauto. Qed.

Lemma advanced_scan_up_to_date st db_snap t :
  In t (up_to_date (fst (advanced_scan string_sha st db_snap))) <->
  In t (all_tables st db_snap) /\ next_of string_sha st db_snap t = None /\
  In (live_of string_sha db_snap t) (seen st).
Proof. unfold advanced_scan. rewrite scan_up_to_date. simpl. tauto. Qed.

End Partition.

(** X17. The scan of advanced resolution puts every table of the snapshot
    or of the history in one place and one only: the list of the tables up
    to date (no migration from its hash, which has been seen), the list of
    the tables in error (no migration from its hash, which has never been
    seen), or the group of one slug.  It puts no other table anywhere, and
    it never fills the list [untracked]. *)
Theorem advanced_scan_partition
    (string_sha : string -> string) (st : PugPugState) (db_snap : Snapshot)
    (t : string) :
  untracked (fst (advanced_scan string_sha st db_snap)) = [] /\
  (In t (up_to_date (fst (advanced_scan string_sha st db_snap))) <->
   In t (all_tables st db_snap) /\ next_of string_sha st db_snap t = None /\
   In (live_of string_sha db_snap t) (seen st)) /\
  (In t (all_tables st db_snap) <->
   In t (up_to_date (fst (advanced_scan string_sha st db_snap))) \/
   In t (error (fst (advanced_scan string_sha st db_snap))) \/
   exists m g,
     get (next_migs (fst (advanced_scan string_sha st db_snap))) m = Some g /\
     In t g) /\
  ~ (In t (up_to_date (fst (advanced_scan string_sha st db_snap))) /\
     In t (error (fst (advanced_scan string_sha st db_snap)))) /\
  (forall m g,
      get (next_migs (fst (advanced_scan string_sha st db_snap))) m = Some g ->
      In t g ->
      ~ In t (up_to_date (fst (advanced_scan string_sha st db_snap))) /\
      ~ In t (error (fst (advanced_scan string_sha st db_snap))) /\
      forall m' g',
        get (next_migs (fst (advanced_scan string_sha st db_snap))) m' = Some g' ->
        In t g' -> m' = m).
Proof.
  pose proof (advanced_scan_up_to_date string_sha st db_snap t) as U.
  pose proof (advanced_scan_error string_sha st db_snap t) as Er.
  pose proof (fun m => advanced_scan_groups string_sha st db_snap m t) as G.
  split; [unfold advanced_scan; now rewrite scan_untracked|].
  split; [exact U|]. split; [|split].
  - split.
    + intros I. destruct (next_of string_sha st db_snap t) as [m|] eqn:N.
      * right. right. destruct (proj2 (G m) (conj I eq_refl)) as (g & X & J).
        exists m, g. tauto.
      * destruct (in_dec string_dec (live_of string_sha db_snap t) (seen st)).
        -- left. apply U. tauto.
        -- right. left. apply Er. tauto.
    + intros [I|[I|(m & g & X & J)]].
      * now apply U in I.
      * now apply Er in I.
      * apply (G m). exists g. tauto.
  - intros [I J]. apply U in I. apply Er in J. tauto.
  - intros m g X J.
    assert (N : In t (all_tables st db_snap) /\
                next_of string_sha st db_snap t = Some m)
      by (apply G; exists g; tauto).
    split; [|split].
    + intros I. apply U in I. destruct N as [_ N], I as (_ & I & _). congruence.
    + intros I. apply Er in I. destruct N as [_ N], I as (_ & I & _). congruence.
    + intros m' g' X' J'.
      assert (N' : In t (all_tables st db_snap) /\
                   next_of string_sha st db_snap t = Some m')
        by (apply G; exists g'; tauto).
      destruct N as [_ N], N' as [_ N']. congruence.
Qed.

(* ================================================================== *)
(** ** What [check] answers *)

Section CheckAnswer.

Variable string_sha : string -> string.

Lemma advanced_scan_recorded fs st out db_snap m :
  load_all string_sha fs = Ok (st, out) ->
  In m (keys (next_migs (fst (advanced_scan string_sha st db_snap)))) ->
  In m (keys (seq st)).
Proof.
  intros L I.
  destruct (load_all_state string_sha fs st out L) as (_ & _ & Slugs & _).
  apply get_None_keys_not in I.
  destruct (get (next_migs (fst (advanced_scan string_sha st db_snap))) m)
    as [g|] eqn:G; [|contradiction].
  destruct g as [|t g].
  - exfalso. now apply (advanced_scan_nonempty string_sha st db_snap m []).
  - destruct (proj1 (advanced_scan_groups string_sha st db_snap m t)) as [_ X].
    + exists (t :: g). simpl. auto.
    + apply (Slugs t _ m X).
Qed.

Lemma simple_recorded fs st out db_snap s :
  load_all string_sha fs = Ok (st, out) ->
  find_next_migration_simple string_sha st db_snap = Some s ->
  In s (keys (seq st)).
Proof.
  intros L F.
  destruct (load_all_state string_sha fs st out L) as (_ & S & _).
  unfold find_next_migration_simple in F. rewrite S in F.
  apply last_start_Some in F. destruct F as (l1 & mig & l2 & E & _).
  rewrite E. unfold keys. rewrite map_app. apply in_or_app. right. now left.
Qed.

End CheckAnswer.

(** X18. Whatever [check] returns, it returns about recorded migrations
    only.  It returns [None] exactly for a database that is up to date; a
    slug it returns is not empty, is the one of simple resolution and is
    recorded; the groups it returns are not empty and every slug of theirs
    is recorded; and it returns [False] only when the index has no
    migration for any table of the snapshot or of the history at its
    hash. *)
Theorem check_answers_recorded
    (string_sha : string -> string) (fs : Files) (db_snap : Snapshot)
    (out : list Msg) (r : CheckResult) :
  check string_sha fs db_snap = (out, Ok r) ->
  exists st out0,
    load_all string_sha fs = Ok (st, out0) /\
    (r = CheckNone <-> is_up_to_date string_sha st db_snap = Ok true) /\
    (forall s, r = CheckSlug s ->
       s <> "" /\ In s (keys (seq st)) /\
       find_next_migration_simple string_sha st db_snap = Some s) /\
    (forall groups, r = CheckGroups groups ->
       groups <> [] /\ forall m, In m (keys groups) -> In m (keys (seq st))) /\
    (r = CheckFalse ->
     forall t, In t (all_tables st db_snap) ->
               next_of string_sha st db_snap t = None).
Proof.
  unfold check.
  destruct (load_all string_sha fs) as [[st out0]|e] eqn:L; [|discriminate].
  intros H. exists st, out0. split; [reflexivity|].
  destruct (is_up_to_date string_sha st db_snap) as [[|]|e] eqn:U;
    [ | | discriminate].
  { inversion H; subst. repeat split; try discriminate; reflexivity. }
  assert (Adv : forall out1 r1,
    (let (out', r') := find_next_migration_advanced string_sha st db_snap in
     match r' with
     | Raise e => (out0 ++ out', Raise e)
     | Ok (Some (g :: groups)) =>
         (out0 ++ out' ++ [ReportNonLinearizable],
          Ok (CheckGroups (g :: groups)))
     | Ok _ => (out0 ++ out' ++ [ReportNoMatch], Ok CheckFalse)
     end) = (out1, Ok r1) ->
    (r1 = CheckNone <-> Ok false = Ok true) /\
    (forall s, r1 = CheckSlug s ->
       s <> "" /\ In s (keys (seq st)) /\
       find_next_migration_simple string_sha st db_snap = Some s) /\
    (forall groups, r1 = CheckGroups groups ->
       groups <> [] /\ forall m, In m (keys groups) -> In m (keys (seq st))) /\
    (r1 = CheckFalse ->
     forall t, In t (all_tables st db_snap) ->
               next_of string_sha st db_snap t = None)).
  { intros out1 r1. unfold find_next_migration_advanced.
    pose proof (fun m => advanced_scan_recorded string_sha fs st out0 db_snap m L) as Rec.
    pose proof (fun m t => advanced_scan_groups string_sha st db_snap m t) as G.
    destruct (advanced_scan string_sha st db_snap) as [sc o1]. simpl in Rec, G.
    destruct (advanced_report string_sha st db_snap (next_migs sc) o1) as [o2 [[]|e]];
      cbn [bind]; [|discriminate].
    destruct (next_migs sc) as [|[m g] nm] eqn:N; intros [= <- <-].
    - split; [split; discriminate|]. split; [discriminate|].
      split; [discriminate|]. intros _ t I.
      destruct (next_of string_sha st db_snap t) as [m|] eqn:X; [|reflexivity].
      destruct (proj2 (G m t) (conj I X)) as (g & Y & _). discriminate.
    - split; [split; discriminate|]. split; [discriminate|].
      split; [|discriminate]. intros groups [= <-].
      split; [discriminate | exact Rec]. }
  destruct (find_next_migration_simple string_sha st db_snap) as [next|] eqn:F.
  - unfold truthy in H. destruct (String.eqb_spec next "") as [->|Ne]; simpl in H.
    + exact (Adv _ _ H).
    + inversion H; subst. split; [split; discriminate|].
      split; [|split; discriminate]. intros s [= <-].
      split; [exact Ne|]. split; [|reflexivity].
      apply (simple_recorded string_sha fs st out0 db_snap next L F).
  - exact (Adv _ _ H).
Qed.

(* ================================================================== *)
(** ** The file of a migration *)

Lemma append_length a b :
  String.length (a ++ b)%string = String.length a + String.length b.
Proof. induction a as [|c a IH]; simpl; [reflexivity | now rewrite IH]. Qed.

Lemma append_cancel_r a b t : (a ++ t)%string = (b ++ t)%string -> a = b.
Proof.
  revert b. induction a as [|c a IH]; intros [|d b] H; simpl in *.
  - reflexivity.
  - exfalso. apply (f_equal String.length) in H. simpl in H.
    rewrite append_length in H. lia.
  - exfalso. apply (f_equal String.length) in H. simpl in H.
    rewrite append_length in H. lia.
  - inversion H. f_equal. now apply IH.
Qed.

(** X19. Two slugs with the same file are the same slug: the script of one
    migration is never the file of another. *)
Theorem get_file_injective (slug1 slug2 : string) :
  get_file slug1 = get_file slug2 -> slug1 = slug2.
Proof.
  unfold get_file, MigrateFiles. intros H.
  apply (append_cancel_r _ _ ".sql").
  simpl in H. now inversion H.
Qed.

(* ================================================================== *)
(** ** The further properties at the database with one table *)


Lemma st_init_consistent : hashes_consistent Sha1.hexdigest (tables st_init).
Proof.
  intros name h text. unfold stored, get_or, st_init. cbn [tables get].
  destruct (String.eqb "a" name); cbn [get]; [|discriminate].
  destruct (String.eqb_spec "70615a6b9b740e9927043ae3eb6175fceadadc63" h)
    as [<-|]; [|discriminate].
  intros [= <-]. vm_compute. reflexivity.
Defined.

Lemma add_migration_hashes_consistent_witness :
  hashes_consistent Sha1.hexdigest (tables st_init) /\
  hashes_consistent Sha1.hexdigest
    (tables (fst (add_migration Sha1.hexdigest "s1" "add n"
                    "ALTER TABLE a ADD n text;" snapA
                    (db_summary Sha1.hexdigest db_two) st_init))).
Proof.
  split; [exact st_init_consistent|].
  exact (add_migration_hashes_consistent Sha1.hexdigest "s1" "add n"
           "ALTER TABLE a ADD n text;" snapA db_two st_init st_init_consistent).
Defined.

Lemma seen_after_load_witness :
  load_all Sha1.hexdigest files_branch = Ok (st_branch, out_branch) /\
  (In hA2 (seen st_branch) <->
   exists slug mig t,
     In (slug, mig) (seq st_branch) /\ In t (names_of mig) /\
     (hA2 = start_of Sha1.hexdigest mig t \/ hA2 = end_of Sha1.hexdigest mig t)).
Proof.
  split; [exact load_branch|].
  exact (seen_after_load Sha1.hexdigest files_branch st_branch out_branch hA2
           load_branch).
Defined.

Lemma transform_after_load_witness :
  load_all Sha1.hexdigest files_branch = Ok (st_branch, out_branch) /\
  (transform (table_transforms st_branch) "a" hA = Some "s2" <->
   exists l1 mig l2,
     seq st_branch = l1 ++ ("s2", mig) :: l2 /\
     changes_from Sha1.hexdigest mig "a" hA = true /\
     forall sm, In sm l2 -> changes_from Sha1.hexdigest (snd sm) "a" hA = false).
Proof.
  split; [exact load_branch|].
  exact (transform_after_load Sha1.hexdigest files_branch st_branch out_branch
           "a" hA "s2" load_branch).
Defined.

Lemma add_migration_up_to_date_witness :
  (forall k, In k (keys (seq st_branch)) -> String.leb k "s3" = true) /\
  is_up_to_date Sha1.hexdigest
    (fst (add_migration Sha1.hexdigest "s3" "add n again"
            "ALTER TABLE a ADD n text;" snapA snapA2 st_branch))
    snapA2 = Ok true.
Proof.
  assert (H : forall k, In k (keys (seq st_branch)) -> String.leb k "s3" = true)
    by (intros k [<-|[<-|[<-|[]]]]; reflexivity).
  split; [exact H|].
  exact (add_migration_up_to_date Sha1.hexdigest "s3" "add n again"
           "ALTER TABLE a ADD n text;" snapA snapA2 st_branch H).
Defined.

Lemma st_init_named :
  forall slug mig t,
    get (seq st_init) slug = Some mig -> In t (names_of mig) ->
    In t (keys (tables st_init)) \/ table_file files_none t <> None.
Proof.
  intros slug mig t G N. left. unfold st_init in G. cbn [seq get] in G.
  destruct (String.eqb "s0" slug); [|discriminate].
  inversion G; subst mig. vm_compute in N. vm_compute. exact N.
Defined.

Lemma save_all_load_all_witness :
  saveable st_init = true /\
  (forall slug mig t,
      get (seq st_init) slug = Some mig -> In t (names_of mig) ->
      In t (keys (tables st_init)) \/ table_file files_none t <> None) /\
  exists st' out,
    load_all Sha1.hexdigest (save_all st_init files_none) = Ok (st', out) /\
    (forall slug, get (seq st') slug = get (seq st_init) slug) /\
    ascending (keys (seq st')) /\
    (forall t, In t (keys (tables st')) <->
       exists slug mig, get (seq st_init) slug = Some mig /\ In t (names_of mig)) /\
    (forall t h, In t (keys (tables st')) -> In t (keys (tables st_init)) ->
       stored (tables st') t h = stored (tables st_init) t h).
Proof.
  split; [reflexivity|]. split; [exact st_init_named|].
  exact (save_all_load_all Sha1.hexdigest st_init files_none eq_refl
           st_init_named).
Defined.

Lemma init_then_check_witness :
  exists fs',
    init_files Sha1.hexdigest keep january_15 dirs_none files_none false db_one = Ok fs' /\
    exists out,
      check Sha1.hexdigest fs' (db_summary Sha1.hexdigest db_one)
        = (out ++ [ReportUpToDate], Ok CheckNone).
Proof.
  eexists. split; [vm_compute; reflexivity|].
  refine (init_then_check Sha1.hexdigest keep january_15 dirs_none files_none _
            false db_one _).
  vm_compute. reflexivity.
Defined.


Lemma migrate_ran :
  migrate Sha1.hexdigest run_add_m files_branch db_one None
    = Ok (Ran (get_file "s2") db_three None).
Proof. vm_compute. reflexivity. Qed.

Lemma migrate_runs_only_valid_witness :
  migrate Sha1.hexdigest run_add_m files_branch db_one None
    = Ok (Ran (get_file "s2") db_three None) /\
  exists st out s mig,
    load_all Sha1.hexdigest files_branch = Ok (st, out) /\
    chosen_slug Sha1.hexdigest st (db_summary Sha1.hexdigest db_one) None = Some s /\
    s <> "" /\
    get_file "s2" = get_file s /\
    get (seq st) s = Some mig /\
    run_add_m db_one (get_file "s2") = Ok db_three.
Proof.
  split; [exact migrate_ran|].
  destruct (migrate_runs_only_valid Sha1.hexdigest run_add_m files_branch db_one
              db_three None (get_file "s2") None migrate_ran)
    as (st & out & s & mig & A & B & C & D & E & F & _).
  exists st, out, s, mig. repeat split; assumption.
Defined.

Lemma migrate_stops_witness :
  load_all Sha1.hexdigest files_branch = Ok (st_branch, out_branch) /\
  (forall s,
      chosen_slug Sha1.hexdigest st_branch (db_summary Sha1.hexdigest db_one)
        (Some "s9") = Some s ->
      s <> "" -> get (seq st_branch) s = None ->
      migrate Sha1.hexdigest run_add_m files_branch db_one (Some "s9")
        = Raise (KeyError s)).
Proof.
  split; [exact load_branch|].
  exact (proj1 (migrate_stops Sha1.hexdigest run_add_m files_branch db_one
                  (Some "s9") st_branch out_branch load_branch)).
Defined.

Lemma check_next_simple :
  check Sha1.hexdigest files_branch snapA
    = (out_branch ++ [ReportNextSimple "s2"], Ok (CheckSlug "s2")).
Proof. vm_compute. reflexivity. Qed.

Lemma check_answers_recorded_witness :
  check Sha1.hexdigest files_branch snapA
    = (out_branch ++ [ReportNextSimple "s2"], Ok (CheckSlug "s2")) /\
  exists st out0,
    load_all Sha1.hexdigest files_branch = Ok (st, out0) /\
    "s2" <> "" /\ In "s2" (keys (seq st)) /\
    find_next_migration_simple Sha1.hexdigest st snapA = Some "s2".
Proof.
  split; [exact check_next_simple|].
  destruct (check_answers_recorded Sha1.hexdigest files_branch snapA _ _
              check_next_simple) as (st & out0 & L & _ & S & _).
  exists st, out0. split; [exact L|]. exact (S "s2" eq_refl).
Defined.

Lemma get_file_injective_witness :
  get_file "s1" = get_file "s1" /\ "s1" = "s1".
Proof.
  split; [reflexivity|].
  exact (get_file_injective "s1" "s1" eq_refl).
Defined.

(* ================================================================== *)
(** ** When the state loads *)

Lemma load_tables_Ok_files fs names acc tb :
  load_tables fs names acc = Ok tb ->
  forall t, In t names -> table_file fs t <> None.
Proof.
  revert acc. induction names as [|n names IH]; intros acc H t I; simpl in *.
  - destruct I.
  - destruct (table_file fs n) as [hist|] eqn:T; [|discriminate].
    destruct I as [<-|I]; [congruence | now apply (IH _ H)].
Qed.

Lemma load_tables_Raise fs names acc e :
  load_tables fs names acc = Raise e ->
  exists t, In t names /\ table_file fs t = None /\ e = IOError (TableFiles t).
Proof.
  revert acc. induction names as [|n names IH]; intros acc H; simpl in *.
  - discriminate.
  - destruct (table_file fs n) as [hist|] eqn:T.
    + destruct (IH _ H) as (t & I & X). exists t. tauto.
    + inversion H. exists n. tauto.
Qed.

(** X20. [load_all] returns exactly when the sequence file exists and
    every table that a migration of the sequence names has its file; when
    it raises, it is for the sequence file that is missing, or for the
    missing file of such a table. *)
Theorem load_all_needs_files (string_sha : string -> string) (fs : Files) :
  ((exists st out, load_all string_sha fs = Ok (st, out)) <->
   exists sq,
     sequence_file fs = Some sq /\
     forall slug mig t, In (slug, mig) sq -> In t (names_of mig) ->
                        table_file fs t <> None) /\
  (forall e,
      load_all string_sha fs = Raise e ->
      (sequence_file fs = None /\ e = IOError SequenceFile) \/
      exists sq slug mig t,
        sequence_file fs = Some sq /\ In (slug, mig) sq /\ In t (names_of mig) /\
        table_file fs t = None /\ e = IOError (TableFiles t)).
Proof.
  unfold load_all. destruct (sequence_file fs) as [sq|].
  2:{ split.
      - split; [intros (? & ? & H); discriminate | intros (? & H & _); discriminate].
      - intros e [= <-]. left. tauto. }
  pose proof (index_all_keys string_sha sq (mkState [] [] [] [] sq, [])) as K.
  destruct (index_all string_sha sq (mkState [] [] [] [] sq, [])) as [st1 out1].
  simpl in K.
  destruct (load_tables fs (keys (table_transforms st1)) []) as [tb|e0] eqn:L; simpl.
  - split; [|discriminate]. split; [|eauto].
    intros _. exists sq. split; [reflexivity|]. intros slug mig t I N.
    apply (load_tables_Ok_files fs _ _ tb L). apply (proj2 (K t)). left.
    exists slug, mig. tauto.
  - split.
    + split; [intros (? & ? & H); discriminate|].
      intros (sq' & [= <-] & H). exfalso.
      apply load_tables_Raise in L. destruct L as (t & I & T & _).
      apply K in I. destruct I as [(slug & mig & I & N)|[]].
      now apply (H slug mig t I N).
    + intros e [= <-]. right.
      apply load_tables_Raise in L. destruct L as (t & I & T & E).
      apply K in I. destruct I as [(slug & mig & I & N)|[]].
      exists sq, slug, mig, t. tauto.
Qed.

(* ================================================================== *)
(** ** What [init] writes *)

(** X21. The files [init] writes: a sequence with the one record of the
    initial migration; for every table of the database, a history with
    the text of the table under its hash and nothing else; and the file
    of any other table as it was. *)
Theorem init_files_written
    (string_sha slugify : string -> string) (now : datetime) (dirs : Dirs)
    (fs fs' : Files) (force : bool) (db : Database) :
  init_files string_sha slugify now dirs fs force db = Ok fs' ->
  sequence_file fs' =
    Some [(mk_slug slugify now "Initial Leap.",
           mkMigration "Initial Leap." []
             (snap_to_shas (db_summary string_sha db))
             (string_sha (show_full_create db)))] /\
  (forall t, In t (list_tables db) ->
     exists history,
       table_file fs' t = Some history /\
       forall h, get history h =
                 if String.eqb (string_sha (show_create db t)) h
                 then Some (show_create db t) else None) /\
  (forall t, ~ In t (list_tables db) -> table_file fs' t = table_file fs t).
Proof.
  intros F. apply init_files_Ok in F. subst fs'.
  remember (fst (add_migration string_sha (mk_slug slugify now "Initial Leap.")
                   "Initial Leap." (show_full_create db) []
                   (db_summary string_sha db) (mkState [] [] [] [] [])))
    as st eqn:I.
  pose proof (add_migration_seq string_sha (mk_slug slugify now "Initial Leap.")
                "Initial Leap." (show_full_create db) []
                (db_summary string_sha db) (mkState [] [] [] [] [])) as S.
  pose proof (add_migration_tables string_sha (mk_slug slugify now "Initial Leap.")
                "Initial Leap." (show_full_create db) []
                (db_summary string_sha db) (mkState [] [] [] [] [])) as T.
  rewrite <- I in S, T. simpl in S.
  assert (K : forall t, In t (keys (tables st)) <-> In t (list_tables db)).
  { intros t. rewrite T, (update_table_snaps_keys string_sha).
    rewrite (db_summary_entries_keys string_sha db t). simpl. tauto. }
  split; [|split].
  - simpl. rewrite S. unfold dump_sorted_yaml. simpl.
    now rewrite String.eqb_refl.
  - intros t J. simpl.
    assert (Kt : In t (keys (tables st))) by now apply K.
    apply get_None_keys_not in Kt.
    destruct (get (tables st) t) as [hist|] eqn:G; [|contradiction].
    exists (dump_sorted_yaml hist). split; [reflexivity|]. intros h.
    rewrite dump_sorted_yaml_get.
    assert (X : stored (tables st) t h = get hist h)
      by (unfold stored, get_or; now rewrite G).
    rewrite <- X, T, update_table_snaps_stored. simpl. unfold snapshot_text.
    assert (D : get (db_summary string_sha db) t
                = Some (table_summary string_sha db t)).
    { apply (db_summary_entries_keys string_sha db t) in J.
      apply get_None_keys_not in J.
      destruct (get (db_summary string_sha db) t) as [info|] eqn:Gd;
        [|contradiction].
      now rewrite (db_summary_get string_sha db t info Gd). }
    rewrite D. reflexivity.
  - intros t J. simpl.
    assert (Kt : ~ In t (keys (tables st))) by (intros X; now apply J, K).
    apply get_None_keys in Kt. now rewrite Kt.
Qed.

(* ================================================================== *)
(** ** The latest migration *)

(** X22. [is_up_to_date] answers whether the joint hash of the snapshot is
    the one of the end state of the record under the slug that [show]
    calls the latest, the last of the slugs in ascending order. *)
Theorem is_up_to_date_compares_latest
    (string_sha : string -> string) (st : PugPugState) (db_snap : Snapshot)
    (slug : string) (mig : Migration) :
  latest_slug st = Ok slug ->
  get (seq st) slug = Some mig ->
  is_up_to_date string_sha st db_snap =
  Ok (String.eqb (snap_sha string_sha (snap_to_shas db_snap))
                 (snap_sha string_sha (end_shas mig))).
Proof.
  intros Lt G. apply (is_up_to_date_latest string_sha st db_snap slug mig G).
  unfold latest_slug, get_slugs, last_item in Lt.
  pose proof (sorted_ascending (keys (seq st))) as A.
  pose proof (In_sorted (keys (seq st))) as P.
  destruct (sorted (keys (seq st))) as [|a l]; [discriminate|].
  inversion Lt; subst slug. intros k K.
  apply last_ascending; [exact A | now apply P].
Qed.

(* ================================================================== *)
(** ** Before the run and after it *)

(** X23. A recorded migration that changes a table does not pass, on one
    snapshot, both the check before the run and the check after it. *)
Theorem check_validity_pre_excludes_post
    (string_sha : string -> string) (st : PugPugState) (slug : string)
    (mig : Migration) (db_snap : Snapshot) (name : string) :
  get (seq st) slug = Some mig ->
  start_of string_sha mig name <> end_of string_sha mig name ->
  ~ (check_validity string_sha st slug db_snap false = Ok None /\
     check_validity string_sha st slug db_snap true = Ok None).
Proof.
  intros G C.
  rewrite !(check_validity_recorded string_sha st slug mig db_snap _ G).
  intros [Pre Post].
  assert (B0 : bad_tables_of string_sha mig db_snap false = [])
    by (destruct (bad_tables_of string_sha mig db_snap false);
        [reflexivity | discriminate]).
  assert (B1 : bad_tables_of string_sha mig db_snap true = [])
    by (destruct (bad_tables_of string_sha mig db_snap true);
        [reflexivity | discriminate]).
  pose proof (proj1 (no_bad_tables string_sha mig db_snap false) B0 name C) as P0.
  pose proof (proj1 (no_bad_tables string_sha mig db_snap true) B1 name C) as P1.
  simpl in P0, P1. congruence.
Qed.

(** X24. When [migrate] has run the file of a slug it was given (not an
    empty one) and the
    check after the run named no table, then [migrate] with the same slug
    on the database the run left runs nothing, if the migration changes a
    table at all: it reports the changed tables as forbidding the run. *)
Theorem migrate_again_refused
    (string_sha : string -> string)
    (run_sql run_sql' : Database -> string -> result Database)
    (fs : Files) (db db' : Database) (s filename name : string)
    (st : PugPugState) (out : list Msg) (mig : Migration) :
  load_all string_sha fs = Ok (st, out) ->
  s <> "" ->
  get (seq st) s = Some mig ->
  start_of string_sha mig name <> end_of string_sha mig name ->
  migrate string_sha run_sql fs db (Some s) = Ok (Ran filename db' None) ->
  exists bad,
    migrate string_sha run_sql' fs db' (Some s) = Ok (CantRun bad) /\
    In name bad.
Proof.
  intros L Ne G C H.
  assert (T : truthy s = true)
    by (unfold truthy; destruct (String.eqb_spec s ""); [contradiction|reflexivity]).
  unfold migrate, chosen_slug in *. rewrite L in *. simpl in *.
  rewrite T in H. cbv beta iota in H. rewrite T in H.
  rewrite T. cbv beta iota. rewrite T.
  rewrite (check_validity_recorded string_sha st s mig _ false G) in H.
  rewrite (check_validity_recorded string_sha st s mig _ false G).
  cbn [bind] in *.
  destruct (bad_tables_of string_sha mig (db_summary string_sha db) false)
    as [|b bad]; cbv beta iota in H; [|discriminate H].
  destruct (run_sql db (get_file s)) as [db1|e]; cbn [bind] in H; [|discriminate H].
  rewrite (check_validity_recorded string_sha st s mig _ true G) in H.
  cbn [bind] in H.
  destruct (bad_tables_of string_sha mig (db_summary string_sha db1) true)
    as [|b' bad'] eqn:B1; [|discriminate H].
  inversion H; subst db1.
  pose proof (proj1 (no_bad_tables string_sha mig _ true) B1 name C) as P1.
  simpl in P1.
  assert (I : In name (bad_tables_of string_sha mig (db_summary string_sha db') false)).
  { apply bad_tables_of_In. split; [exact C|]. simpl. congruence. }
  destruct (bad_tables_of string_sha mig (db_summary string_sha db') false)
    as [|b2 bad2]; [destruct I|].
  eexists. split; [reflexivity | exact I].
Qed.

(* ================================================================== *)
(** ** The last properties at the database with one table *)

Lemma init_files_written_witness :
  exists fs',
    init_files Sha1.hexdigest keep january_15 dirs_none files_none false db_one = Ok fs' /\
    sequence_file fs' =
      Some [(mk_slug keep january_15 "Initial Leap.",
             mkMigration "Initial Leap." []
               (snap_to_shas (db_summary Sha1.hexdigest db_one))
               (Sha1.hexdigest (show_full_create db_one)))].
Proof.
  eexists. split; [vm_compute; reflexivity|].
  refine (proj1 (init_files_written Sha1.hexdigest keep january_15 dirs_none
                   files_none _ false db_one _)).
  vm_compute. reflexivity.
Defined.

Lemma is_up_to_date_compares_latest_witness :
  latest_slug st_branch = Ok "s2" /\
  get (seq st_branch) "s2" = Some mig2 /\
  is_up_to_date Sha1.hexdigest st_branch snapA2 =
    Ok (String.eqb (snap_sha Sha1.hexdigest (snap_to_shas snapA2))
                   (snap_sha Sha1.hexdigest (end_shas mig2))).
Proof.
  assert (A : latest_slug st_branch = Ok "s2") by (vm_compute; reflexivity).
  assert (B : get (seq st_branch) "s2" = Some mig2) by (vm_compute; reflexivity).
  split; [exact A|]. split; [exact B|].
  exact (is_up_to_date_compares_latest Sha1.hexdigest st_branch snapA2 "s2" mig2
           A B).
Defined.

Lemma check_validity_pre_excludes_post_witness :
  get (seq st_branch) "s1" = Some mig1 /\
  start_of Sha1.hexdigest mig1 "a" <> end_of Sha1.hexdigest mig1 "a" /\
  ~ (check_validity Sha1.hexdigest st_branch "s1" snapA false = Ok None /\
     check_validity Sha1.hexdigest st_branch "s1" snapA true = Ok None).
Proof.
  assert (A : get (seq st_branch) "s1" = Some mig1) by (vm_compute; reflexivity).
  assert (B : start_of Sha1.hexdigest mig1 "a" <> end_of Sha1.hexdigest mig1 "a")
    by (vm_compute; discriminate).
  split; [exact A|]. split; [exact B|].
  exact (check_validity_pre_excludes_post Sha1.hexdigest st_branch "s1" mig1
           snapA "a" A B).
Defined.

Lemma migrate_ran_given :
  migrate Sha1.hexdigest run_add_n files_branch db_one (Some "s1")
    = Ok (Ran (get_file "s1") db_two None).
Proof. vm_compute. reflexivity. Qed.

Lemma migrate_again_refused_witness :
  load_all Sha1.hexdigest files_branch = Ok (st_branch, out_branch) /\
  "s1" <> "" /\
  get (seq st_branch) "s1" = Some mig1 /\
  start_of Sha1.hexdigest mig1 "a" <> end_of Sha1.hexdigest mig1 "a" /\
  migrate Sha1.hexdigest run_add_n files_branch db_one (Some "s1")
    = Ok (Ran (get_file "s1") db_two None) /\
  exists bad,
    migrate Sha1.hexdigest run_add_n files_branch db_two (Some "s1")
      = Ok (CantRun bad) /\
    In "a" bad.
Proof.
  assert (N : "s1" <> "") by discriminate.
  assert (A : get (seq st_branch) "s1" = Some mig1) by (vm_compute; reflexivity).
  assert (B : start_of Sha1.hexdigest mig1 "a" <> end_of Sha1.hexdigest mig1 "a")
    by (vm_compute; discriminate).
  split; [exact load_branch|]. split; [exact N|]. split; [exact A|].
  split; [exact B|]. split; [exact migrate_ran_given|].
  exact (migrate_again_refused Sha1.hexdigest run_add_n run_add_n files_branch
           db_one db_two "s1" (get_file "s1") "a" st_branch out_branch mig1
           load_branch N A B migrate_ran_given).
Defined.

(* ================================================================== *)
(** ** What [check] prints last, and the directories of [init] *)

(** X25. Whatever [check] returns, the last line it printed is the one
    that goes with the answer: that the database is up to date with
    [None], the next migration with a slug, that the migrations are not
    linearizable with groups, and that no migration was found with
    [False]. *)
Theorem check_reports_answer
    (string_sha : string -> string) (fs : Files) (db_snap : Snapshot)
    (out : list Msg) (r : CheckResult) :
  check string_sha fs db_snap = (out, Ok r) ->
  exists out', out = out' ++ [report_of r].
Proof.
  unfold check.
  destruct (load_all string_sha fs) as [[st out0]|e]; [|discriminate].
  destruct (is_up_to_date string_sha st db_snap) as [[|]|e]; [ | |discriminate].
  { intros [= <- <-]. now exists out0. }
  assert (Adv : forall (o : list Msg * result (option (dict (list string)))) r',
    (let (out', r0) := o in
     match r0 with
     | Raise e => (out0 ++ out', Raise e)
     | Ok (Some (g :: groups)) =>
         (out0 ++ out' ++ [ReportNonLinearizable],
          Ok (CheckGroups (g :: groups)))
     | Ok _ => (out0 ++ out' ++ [ReportNoMatch], Ok CheckFalse)
     end) = (out, Ok r') ->
    exists out', out = out' ++ [report_of r']).
  { intros [o' [[[|g groups]|]|e]] r'; try discriminate;
      intros [= <- <-]; exists (out0 ++ o'); now rewrite app_assoc. }
  destruct (find_next_migration_simple string_sha st db_snap) as [next|].
  - destruct (truthy next).
    + intros [= <- <-]. now exists out0.
    + apply Adv.
  - apply Adv.
Qed.

Lemma init_tables_keys
    (string_sha slugify : string -> string) now dirs fs force db st out t :
  init string_sha slugify now dirs fs force (show_full_create db)
    (db_summary string_sha db) = Ok (st, out) ->
  In t (keys (tables st)) <-> In t (list_tables db).
Proof.
  intros I. apply (init_Ok string_sha slugify) in I. subst st.
  rewrite add_migration_tables, (update_table_snaps_keys string_sha).
  rewrite (db_summary_entries_keys string_sha db t). simpl. tauto.
Qed.

(** X26. [init] writes its files exactly when [init_from_zero] lets it
    pass and, the database having a table, [pugpug/table_data] is there
    for the files of the tables: it was there, or [pugpug/sql] was not and
    both were made.  When it raises, either [init_from_zero] raised, or
    [pugpug/table_data] is missing beside [pugpug/sql] and the file of a
    table of the database could not be opened. *)
Theorem init_files_directories
    (string_sha slugify : string -> string) (now : datetime) (dirs : Dirs)
    (fs : Files) (force : bool) (db : Database) :
  (forall fs',
      init_files string_sha slugify now dirs fs force db = Ok fs' <->
      (exists st out,
          init string_sha slugify now dirs fs force (show_full_create db)
            (db_summary string_sha db) = Ok (st, out) /\
          fs' = save_all st fs) /\
      (list_tables db = [] \/ sql_dir dirs = false \/ table_data_dir dirs = true)) /\
  (forall e,
      init_files string_sha slugify now dirs fs force db = Raise e ->
      init string_sha slugify now dirs fs force (show_full_create db)
        (db_summary string_sha db) = Raise e \/
      (sql_dir dirs = true /\ table_data_dir dirs = false /\
       exists t, In t (list_tables db) /\ e = IOError (TableFiles t))).
Proof.
  unfold init_files.
  destruct (init string_sha slugify now dirs fs force (show_full_create db)
              (db_summary string_sha db)) as [[st o]|e0] eqn:I; cbn [bind fst].
  - pose proof (fun t => init_tables_keys string_sha slugify now dirs fs force
                           db st o t I) as K.
    destruct (tables st) as [|[table history] tb] eqn:T.
    + assert (E : list_tables db = []).
      { destruct (list_tables db) as [|t l]; [reflexivity|].
        destruct (proj2 (K t) (or_introl eq_refl)). }
      split.
      * intros fs'. split.
        -- intros [= <-]. split; [now exists st, o | now left].
        -- intros [(st1 & o1 & [= <- <-] & ->) _]. reflexivity.
      * discriminate.
    + assert (J : In table (list_tables db))
        by (apply K; now left).
      destruct (sql_dir dirs), (table_data_dir dirs); cbn [negb orb]; split;
        try discriminate.
      * intros fs'. split.
        -- intros [= <-]. split; [now exists st, o | now right; right].
        -- intros [(st1 & o1 & [= <- <-] & ->) _]. reflexivity.
      * intros fs'. split; [discriminate|].
        intros [_ [E|[E|E]]]; [|discriminate E|discriminate E].
        rewrite E in J. destruct J.
      * intros e [= <-]. right. split; [reflexivity|]. split; [reflexivity|].
        now exists table.
      * intros fs'. split.
        -- intros [= <-]. split; [now exists st, o | now right; left].
        -- intros [(st1 & o1 & [= <- <-] & ->) _]. reflexivity.
      * intros fs'. split.
        -- intros [= <-]. split; [now exists st, o | now right; left].
        -- intros [(st1 & o1 & [= <- <-] & ->) _]. reflexivity.
  - split.
    + intros fs'. split; [discriminate|].
      intros [(st1 & o1 & H & _) _]. discriminate H.
    + intros e [= <-]. now left.
Qed.

Lemma check_reports_answer_witness :
  check Sha1.hexdigest files_branch (snapA ++ [("b", mkSummary sqlX hX)])
    = ([WarnMultipleTransforms "a" hA; ErrorUnknownTable "b";
        ReportMigration "s2" ["a"]; ReportNonLinearizable],
       Ok (CheckGroups [("s2", ["a"])])) /\
  exists out',
    [WarnMultipleTransforms "a" hA; ErrorUnknownTable "b";
     ReportMigration "s2" ["a"]; ReportNonLinearizable]
      = out' ++ [report_of (CheckGroups [("s2", ["a"])])].
Proof.
  assert (H : check Sha1.hexdigest files_branch
                (snapA ++ [("b", mkSummary sqlX hX)])
              = ([WarnMultipleTransforms "a" hA; ErrorUnknownTable "b";
                  ReportMigration "s2" ["a"]; ReportNonLinearizable],
                 Ok (CheckGroups [("s2", ["a"])])))
    by (vm_compute; reflexivity).
  split; [exact H|].
  exact (check_reports_answer Sha1.hexdigest files_branch _ _ _ H).
Defined.

(** The two ways [init] fails on its directories, at a database with one
    table and no file yet. *)
Example init_files_table_data_in_the_way :
  init_files Sha1.hexdigest keep january_15 dirs_table_data files_none true db_one
    = Raise (FileExistsError "pugpug/table_data").
Proof. vm_compute. reflexivity. Qed.

Example init_files_table_data_missing :
  init_files Sha1.hexdigest keep january_15 dirs_sql files_none false db_one
    = Raise (IOError "pugpug/table_data/a.yml").
Proof. vm_compute. reflexivity. Qed.

(** [comment[0:2]] of a comment whose second character takes two bytes. *)
Example first_chars_two_bytes :
  first_chars 2 (String "h" (String (ascii_of_nat 195)
                   (String (ascii_of_nat 169) "llo")))
    = String "h" (String (ascii_of_nat 195)
        (String (ascii_of_nat 169) EmptyString)).
Proof. reflexivity. Qed.

(* ================================================================== *)
(** ** The states the commands save *)

Lemma set_set {V} (d : dict V) k v1 v2 : set (set d k v1) k v2 = set d k v2.
Proof.
  induction d as [|[k0 v0] d IH]; simpl.
  - now rewrite String.eqb_refl.
  - destruct (String.eqb k0 k) eqn:E; simpl.
    + now rewrite String.eqb_refl.
    + now rewrite E, IH.
Qed.

Lemma In_set_entry {V} (d : dict V) k v t h :
  In (t, h) (set d k v) -> In (t, h) d \/ h = v.
Proof.
  induction d as [|[k0 v0] d IH]; simpl.
  - intros [[= <- <-]|[]]. now right.
  - destruct (String.eqb k0 k); simpl.
    + intros [[= <- <-]|I]; [now right | now left; right].
    + intros [E|I]; [now left; left|].
      destruct (IH I) as [J|J]; [now left; right | now right].
Qed.

Lemma set_not_nil {V} (d : dict V) k v : set d k v <> [].
Proof.
  destruct d as [|[k0 v0] d]; simpl; [discriminate|].
  destruct (String.eqb k0 k); discriminate.
Qed.

Lemma update_table_snap_histories
    (db_snapshot : Snapshot) (tbs : dict (dict string)) (name : string) :
  In name (keys db_snapshot) ->
  (forall t (history : dict string), In (t, history) tbs -> history <> []) ->
  forall t (history : dict string),
    In (t, history) (update_table_snap db_snapshot tbs name) -> history <> [].
Proof.
  intros K P t history. unfold update_table_snap. cbv zeta.
  apply get_None_keys_not in K.
  destruct (get db_snapshot name) as [table_snap|]; [clear K|contradiction].
  destruct (contains tbs name) eqn:C; cbv beta iota.
  - destruct (contains (get_or tbs name []) (sha table_snap)); [apply P|].
    intros I. apply In_set_entry in I. destruct I as [I| ->].
    + now apply (P t).
    + apply set_not_nil.
  - unfold get_or at 1. rewrite get_set_eq. cbn [contains get].
    rewrite set_set. intros I. apply In_set_entry in I. destruct I as [I| ->].
    + now apply (P t).
    + apply set_not_nil.
Qed.

Lemma update_table_snaps_histories db_snapshot st :
  (forall t history, In (t, history) (tables st) -> history <> []) ->
  forall t history,
    In (t, history) (tables (update_table_snaps db_snapshot st)) ->
    history <> [].
Proof.
  unfold update_table_snaps. cbn [tables with_tables].
  generalize (tables st) as tbs.
  assert (G : forall names tbs,
             (forall n, In n names -> In n (keys db_snapshot)) ->
             (forall t history, In (t, history) tbs -> history <> []) ->
             forall t history,
               In (t, history)
                  (fold_left (update_table_snap db_snapshot) names tbs) ->
               history <> []).
  { induction names as [|n names IH]; intros tbs S P; cbn [fold_left].
    - exact P.
    - apply IH.
      + intros m I. apply S. now right.
      + apply update_table_snap_histories; [apply S; now left | exact P]. }
  intros tbs P. apply G; [tauto | exact P].
Qed.

(** X27. [add_migration] on a state that has no table with an empty
    history leaves a state that [save_all] writes as mappings: a sequence
    with a record, and no table with an empty history. *)
Theorem add_migration_saveable
    (string_sha : string -> string) (slug comment script : string)
    (start_snap end_snap : Snapshot) (st : PugPugState) :
  (forall t history, In (t, history) (tables st) -> history <> []) ->
  saveable (fst (add_migration string_sha slug comment script
                   start_snap end_snap st)) = true.
Proof.
  intros P. unfold saveable. apply andb_true_intro. split.
  - rewrite add_migration_seq.
    pose proof (set_not_nil (seq st) slug
                  (mkMigration comment (snap_to_shas start_snap)
                     (snap_to_shas end_snap) (string_sha script))) as N.
    now destruct (set (seq st) slug _).
  - rewrite add_migration_tables. apply forallb_forall. intros [t history] I.
    pose proof (update_table_snaps_histories end_snap st P t history I) as N.
    cbn [snd]. now destruct history.
Qed.

(** X28. The state [init] saves has a sequence with a record and no
    table with an empty history: [save_all] writes it as mappings. *)
Theorem init_saveable
    (string_sha slugify : string -> string) (now : datetime) (dirs : Dirs)
    (fs : Files) (force : bool) (full_create : string) (db_snap : Snapshot)
    (st : PugPugState) (out : list Msg) :
  init string_sha slugify now dirs fs force full_create db_snap = Ok (st, out) ->
  saveable st = true.
Proof.
  intros I. apply (init_Ok string_sha slugify) in I. subst st.
  unfold saveable. apply andb_true_intro. split.
  - now rewrite add_migration_seq.
  - rewrite add_migration_tables. apply forallb_forall. intros [t history] J.
    assert (N : history <> []).
    { apply (update_table_snaps_histories db_snap (mkState [] [] [] [] []))
        with (t := t); [intros ? ? []|exact J]. }
    cbn [snd]. now destruct history.
Qed.

Lemma add_migration_saveable_witness :
  (forall t history, In (t, history) (tables st_init) -> history <> []) /\
  saveable (fst (add_migration Sha1.hexdigest "s1" "add n"
                   "ALTER TABLE a ADD n text;" snapA snapA2 st_init)) = true.
Proof.
  assert (P : forall t history,
             In (t, history) (tables st_init) -> history <> []).
  { intros t history [[= <- <-]|[]]. discriminate. }
  split; [exact P|].
  exact (add_migration_saveable Sha1.hexdigest "s1" "add n"
           "ALTER TABLE a ADD n text;" snapA snapA2 st_init P).
Defined.

Lemma init_saveable_witness :
  exists st out,
    init Sha1.hexdigest keep january_15 dirs_none files_none false
      (show_full_create db_one) (db_summary Sha1.hexdigest db_one) = Ok (st, out) /\
    saveable st = true.
Proof.
  eexists. eexists. split; [vm_compute; reflexivity|].
  refine (init_saveable Sha1.hexdigest keep january_15 dirs_none files_none false
            (show_full_create db_one) (db_summary Sha1.hexdigest db_one) _ _ _).
  vm_compute. reflexivity.
Defined.
